(** * A shallow embedding of huffman.py

    The Python program builds a Huffman code for the characters of a text
    file, writes the packed encoding with its code book to
    [compressed.txt], and decodes such a file back to [decoded.txt].

    Python values are modelled as follows:
    - [str] is [list ascii]; iterating a string yields its characters and a
      one-character string is a singleton list;
    - [int] is [Z] for frequencies, and [N] for the packed payload, which is
      parsed from an unsigned digit string;
    - a [list] used as an array is a [list] with stdpp's lookup and insert,
      an access out of range raising [IndexError];
    - a [dict] is an association list in insertion order with unique keys;
    - an exception is a [Raise e] result; loops are bounded by a fuel and
      report [OutOfFuel] when the bound is exceeded (the lemmas below show
      that this never happens);
    - files are a finite map from names to contents; a read in text mode
      translates the newlines of the contents. *)

From Stdlib Require Import ZArith NArith Ascii String List Lia.
From stdpp Require Import base numbers list strings gmap.

Local Open Scope Z_scope.

(** ** Results of computations that may raise *)

Inductive exn : Type :=
| IndexError
| ValueError
| KeyError
| AssertionError
| SystemExit (code : Z)
| FileNotFoundError
| UnicodeDecodeError
| UnpicklingError.

Inductive result (A : Type) : Type :=
| Ok (a : A)
| Raise (e : exn)
| OutOfFuel.

Arguments Ok {A} a.
Arguments Raise {A} e.
Arguments OutOfFuel {A}.

Definition bind {A B} (m : result A) (k : A → result B) : result B :=
  match m with
  | Ok a => k a
  | Raise e => Raise e
  | OutOfFuel => OutOfFuel
  end.

Notation "'let*' x ':=' m 'in' k" := (bind m (fun x => k))
  (at level 10, x pattern, m at level 200, k at level 200,
   format "'[v' 'let*'  x  :=  m  'in' '/' k ']'").

Definition assert (b : bool) : result unit :=
  if b then Ok tt else Raise AssertionError.

(** ** Python strings *)

Abbreviation str := (list ascii).

Definition py (s : string) : str := list_ascii_of_string s.

(** ** Python lists used as arrays *)

Section array.
Context {A : Type}.

(** [l[i]] for a non-negative index. *)
Definition list_get (l : list A) (i : nat) : result A :=
  match l !! i with
  | Some x => Ok x
  | None => Raise IndexError
  end.

(** [l[i] = x] for a non-negative index. *)
Definition list_set (l : list A) (i : nat) (x : A) : result (list A) :=
  if decide (i < length l)%nat then Ok (<[i:=x]> l) else Raise IndexError.

(** [l.pop()]: the last element and the list without it. *)
Definition list_pop (l : list A) : result (A * list A) :=
  match last l with
  | Some x => Ok (x, removelast l)
  | None => Raise IndexError
  end.
End array.

(** ** class TreeNode *)

#[local] Set Warnings "-register-all".

Inductive TreeNode : Type := mkTreeNode {
  letter : str;
  freq : Z;
  left : option TreeNode;
  right : option TreeNode;
  encoding : str
}.

(** [TreeNode(letter, num)], for a [letter] that is already a string. *)
Definition TreeNode_init (letter : str) (num : Z) : TreeNode :=
  mkTreeNode letter num None None [].

Definition TreeNode_eq (self other : TreeNode) : bool :=
  freq self =? freq other.

Definition TreeNode_lt (self other : TreeNode) : bool :=
  freq self <? freq other.

(** ** heapq

    [heappush] and [heappop] of the Python standard library (heapq.py,
    with its helpers [_siftdown] and [_siftup]), on a list of nodes
    compared with [TreeNode_lt]: the library only uses [<] on the items.
    The list is mutated in place in Python; here each function returns the
    new list. *)

Fixpoint _siftdown_loop (fuel : nat) (heap : list TreeNode)
    (newitem : TreeNode) (startpos pos : nat) : result (list TreeNode * nat) :=
  if decide (startpos < pos)%nat then
    match fuel with
    | O => OutOfFuel
    | S fuel' =>
        let parentpos := Nat.div2 (pos - 1) in
        let* parent := list_get heap parentpos in
        if TreeNode_lt newitem parent then
          let* heap := list_set heap pos parent in
          _siftdown_loop fuel' heap newitem startpos parentpos
        else Ok (heap, pos)
    end
  else Ok (heap, pos).

Definition _siftdown (heap : list TreeNode) (startpos pos : nat)
    : result (list TreeNode) :=
  let* newitem := list_get heap pos in
  let* (heap, pos) := _siftdown_loop pos heap newitem startpos pos in
  list_set heap pos newitem.

Fixpoint _siftup_loop (fuel : nat) (heap : list TreeNode)
    (endpos pos childpos : nat) : result (list TreeNode * nat) :=
  if decide (childpos < endpos)%nat then
    match fuel with
    | O => OutOfFuel
    | S fuel' =>
        let rightpos := (childpos + 1)%nat in
        let* childpos :=
          if decide (rightpos < endpos)%nat then
            let* l := list_get heap childpos in
            let* r := list_get heap rightpos in
            Ok (if negb (TreeNode_lt l r) then rightpos else childpos)
          else Ok childpos in
        let* child := list_get heap childpos in
        let* heap := list_set heap pos child in
        _siftup_loop fuel' heap endpos childpos (2 * childpos + 1)%nat
    end
  else Ok (heap, pos).

Definition _siftup (heap : list TreeNode) (pos : nat)
    : result (list TreeNode) :=
  let endpos := length heap in
  let startpos := pos in
  let* newitem := list_get heap pos in
  let* (heap, pos) := _siftup_loop endpos heap endpos pos (2 * pos + 1)%nat in
  let* heap := list_set heap pos newitem in
  _siftdown heap startpos pos.

Definition heappush (heap : list TreeNode) (item : TreeNode)
    : result (list TreeNode) :=
  let heap := heap ++ [item] in
  _siftdown heap 0 (length heap - 1).

Definition heappop (heap : list TreeNode)
    : result (TreeNode * list TreeNode) :=
  let* (lastelt, heap) := list_pop heap in
  match heap with
  | _ :: _ =>
      let* returnitem := list_get heap 0 in
      let* heap := list_set heap 0 lastelt in
      let* heap := _siftup heap 0 in
      Ok (returnitem, heap)
  | [] => Ok (lastelt, heap)
  end.

(** ** Python dicts

    An association list in insertion order; a key occurs at most once.
    Assigning to a present key replaces its value in place, assigning to
    an absent key appends the entry. *)

Section dict.
Context {K V : Type} `{EqDecision K}.

Fixpoint dict_get (d : list (K * V)) (k : K) : option V :=
  match d with
  | [] => None
  | (k', v) :: d' => if decide (k = k') then Some v else dict_get d' k
  end.

(** [k in d] *)
Definition dict_contains (d : list (K * V)) (k : K) : bool :=
  match dict_get d k with Some _ => true | None => false end.

(** [d[k]] *)
Definition dict_getitem (d : list (K * V)) (k : K) : result V :=
  match dict_get d k with
  | Some v => Ok v
  | None => Raise KeyError
  end.

(** [d[k] = v] *)
Fixpoint dict_setitem (d : list (K * V)) (k : K) (v : V) : list (K * V) :=
  match d with
  | [] => [(k, v)]
  | (k', v') :: d' =>
      if decide (k = k') then (k', v) :: d'
      else (k', v') :: dict_setitem d' k v
  end.

(** [d1 == d2] *)
Definition dict_eq `{EqDecision V} (d1 d2 : list (K * V)) : bool :=
  bool_decide (length d1 = length d2) &&
  forallb (λ kv, bool_decide (dict_get d2 kv.1 = Some kv.2)) d1.
End dict.

Abbreviation dict K V := (list (K * V)) (only parsing).

(** [{v: k for k, v in d.items()}] *)
Definition dict_invert {K V} `{EqDecision V} (d : dict K V) : dict V K :=
  fold_left (λ acc kv, dict_setitem acc kv.2 kv.1) d [].

(** A [for] loop whose body may raise. *)
Fixpoint for_each {A S} (body : S → A → result S) (l : list A) (st : S)
    : result S :=
  match l with
  | [] => Ok st
  | x :: l' => let* st := body st x in for_each body l' st
  end.

(** ** tree_dfs

    The leaf reached gets its [encoding] set and is appended to [leaves];
    the function returns the new [leaves]. *)

Fixpoint tree_dfs_node (node : TreeNode) (curstr : str)
    (leaves : list TreeNode) : list TreeNode :=
  match node with
  | mkTreeNode l f lft rgt e =>
      match rgt, lft with
      | None, None => leaves ++ [mkTreeNode l f None None curstr]
      | _, _ =>
          let leaves :=
            match rgt with
            | Some r => tree_dfs_node r (curstr ++ ["1"%char]) leaves
            | None => leaves
            end in
          match lft with
          | Some l' => tree_dfs_node l' (curstr ++ ["0"%char]) leaves
          | None => leaves
          end
      end
  end.

Definition tree_dfs (node : option TreeNode) (curstr : str)
    (leaves : list TreeNode) : list TreeNode :=
  match node with
  | None => leaves
  | Some node => tree_dfs_node node curstr leaves
  end.

(** ** make_dict *)

Definition make_dict (data : str) : dict ascii Z :=
  fold_left
    (λ freq_dict char,
       dict_setitem freq_dict char (default 0 (dict_get freq_dict char) + 1))
    data [].

(** ** int, hex and bin

    [int_ x base] is [int(x, base)] on digit strings without sign,
    underscores or surrounding blanks, with the optional [0x] or [0b]
    prefix of the base; [hex] and [bin] are the builtins on non-negative
    integers. *)

Definition digit_value (c : ascii) : option N :=
  let x := N_of_ascii c in
  if (48 <=? x)%N && (x <=? 57)%N then Some (x - 48)%N
  else if (97 <=? x)%N && (x <=? 122)%N then Some (x - 87)%N
  else if (65 <=? x)%N && (x <=? 90)%N then Some (x - 55)%N
  else None.

Definition digit_char (d : N) : ascii :=
  if (d <? 10)%N then ascii_of_N (48 + d) else ascii_of_N (87 + d).

Fixpoint int_digits (base acc : N) (digits : str) : result N :=
  match digits with
  | [] => Ok acc
  | c :: digits' =>
      match digit_value c with
      | Some d =>
          if (d <? base)%N then int_digits base (acc * base + d)%N digits'
          else Raise ValueError
      | None => Raise ValueError
      end
  end.

Definition strip_base_prefix (x : str) (base : N) : str :=
  match x with
  | z :: p :: digits =>
      if bool_decide (z = "0"%char) &&
         ((bool_decide (base = 16%N) &&
           (bool_decide (p = "x"%char) || bool_decide (p = "X"%char))) ||
          (bool_decide (base = 2%N) &&
           (bool_decide (p = "b"%char) || bool_decide (p = "B"%char))))
      then digits else x
  | _ => x
  end.

Definition int_ (x : str) (base : N) : result N :=
  match strip_base_prefix x base with
  | [] => Raise ValueError
  | digits => int_digits base 0 digits
  end.

Fixpoint format_digits (fuel : nat) (base n : N) : result str :=
  match fuel with
  | O => OutOfFuel
  | S fuel' =>
      if (n <? base)%N then Ok [digit_char n]
      else
        let* high := format_digits fuel' base (n / base)%N in
        Ok (high ++ [digit_char (n mod base)%N])
  end.

Definition hex (n : N) : result str :=
  let* digits := format_digits (S (N.to_nat (N.log2 n))) 16 n in
  Ok ("0"%char :: "x"%char :: digits).

Definition bin (n : N) : result str :=
  let* digits := format_digits (S (N.to_nat (N.log2 n))) 2 n in
  Ok ("0"%char :: "b"%char :: digits).

(** ** encode *)

(** The parent node of lines 101 to 103. *)
Definition merge (node1 node2 : TreeNode) : TreeNode :=
  mkTreeNode (letter node1 ++ letter node2) (freq node1 + freq node2)
    (Some node1) (Some node2) [].

(** The [while True] loop of lines 99 to 107. Each iteration pops two nodes
    and pushes at most one, so the length of the heap bounds the number of
    iterations. *)
Fixpoint build_tree (fuel : nat) (minheap : list TreeNode) (len_s : Z)
    : result TreeNode :=
  match fuel with
  | O => OutOfFuel
  | S fuel' =>
      let* (node1, minheap) := heappop minheap in
      let* (node2, minheap) := heappop minheap in
      let parent_node := merge node1 node2 in
      if freq parent_node =? len_s then Ok parent_node
      else
        let* minheap := heappush minheap parent_node in
        build_tree fuel' minheap len_s
  end.

(** Lines 91 to 93: one leaf per entry of [freqs], in the order of the
    dict. *)
Definition make_heap (freqs : dict ascii Z) : result (list TreeNode) :=
  for_each (λ minheap kv, heappush minheap (TreeNode_init [kv.1] kv.2))
    freqs [].

(** Lines 84 to 107: the [parent_node] that the loop leaves. *)
Definition huffman_tree (s : str) : result TreeNode :=
  let freqs := make_dict s in
  let* minheap := make_heap freqs in
  build_tree (S (length minheap)) minheap (Z.of_nat (length s)).

(** Lines 114 to 118. *)
Definition make_encoding_to_char (leaves : list TreeNode)
    : result (dict str str) :=
  for_each
    (λ encoding_to_char leaf,
       let* _ := assert (bool_decide (length (letter leaf) = 1%nat)) in
       let* _ := assert (negb (dict_contains encoding_to_char (encoding leaf))) in
       Ok (dict_setitem encoding_to_char (encoding leaf) (letter leaf)))
    leaves [].

(** Lines 84 to 121: the dict [char_to_encoding]. *)
Definition code_book (s : str) : result (dict str str) :=
  let* parent_node := huffman_tree s in
  let leaves := tree_dfs (Some parent_node) [] [] in
  let* encoding_to_char := make_encoding_to_char leaves in
  Ok (dict_invert encoding_to_char).

(** Line 124: ["".join([char_to_encoding[char] for char in s])] *)
Definition join_codes (char_to_encoding : dict str str) (s : str)
    : result str :=
  for_each
    (λ int_str char,
       let* code := dict_getitem char_to_encoding [char] in
       Ok (int_str ++ code))
    s [].

(** Lines 131 to 133: the loop that restores the leading zeros lost by the
    conversion. *)
Fixpoint add_zeros (fuel : nat) (bin_str int_str : str)
    (num_zeros_to_add : nat) : result (str * nat) :=
  if bool_decide (bin_str ≠ int_str) then
    match fuel with
    | O => OutOfFuel
    | S fuel' =>
        add_zeros fuel' ("0"%char :: bin_str) int_str (num_zeros_to_add + 1)
    end
  else Ok (bin_str, num_zeros_to_add).

(** Lines 125 to 133: from the concatenated codes to the hex string, the
    restored binary string and the number of leading zeros. *)
Definition pack (int_str : str) : result (str * str * nat) :=
  let* n := int_ int_str 2 in
  let* hex_str := hex n in
  let* n := int_ hex_str 16 in
  let* bin_str := bin n in
  let bin_str := drop 2 bin_str in
  let* (bin_str, num_zeros_to_add) :=
    add_zeros (S (length int_str)) bin_str int_str 0 in
  Ok (hex_str, bin_str, num_zeros_to_add).

(** Lines 84 to 133 and 150: what [encode] pickles for the contents [s] of
    its input file. The final assertion on [bin_str] is checked here; the
    one on the pickled mapping is checked in [encode] below. *)
Definition encode_str (s : str) : result (str * dict str str * nat) :=
  let* char_to_encoding := code_book s in
  let* int_str := join_codes char_to_encoding s in
  let* (hex_str, bin_str, num_zeros_to_add) := pack int_str in
  let* _ := assert (bool_decide (bin_str = int_str)) in
  Ok (hex_str, char_to_encoding, num_zeros_to_add).

(** ** decode *)

(** [bin_str[i:j]] for [0 <= i <= j]. *)
Definition slice (bin_str : str) (i j : nat) : str :=
  take (j - i) (drop i bin_str).

(** Lines 162 to 164. *)
Definition unpack (hex_str : str) (num_zeros_to_add : nat) : result str :=
  let* n := int_ hex_str 16 in
  let* bin_str := bin n in
  let bin_str := drop 2 bin_str in
  Ok (Nat.iter num_zeros_to_add (λ bin_str, "0"%char :: bin_str) bin_str).

(** The inner [while] of lines 171 and 172; it returns the final [j]. *)
Fixpoint scan_code (fuel : nat) (bin_str : str)
    (encoding_to_char : dict str str) (i j : nat) : result nat :=
  if bool_decide (j < length bin_str)%nat &&
     negb (dict_contains encoding_to_char (slice bin_str i j))
  then
    match fuel with
    | O => OutOfFuel
    | S fuel' => scan_code fuel' bin_str encoding_to_char i (j + 1)
    end
  else Ok j.

(** The outer [while] of lines 169 to 176; it returns [original]. *)
Fixpoint decode_loop (fuel : nat) (bin_str : str)
    (encoding_to_char : dict str str) (original : str) (i : nat)
    : result str :=
  if bool_decide (i < length bin_str)%nat then
    match fuel with
    | O => OutOfFuel
    | S fuel' =>
        let j := (i + 1)%nat in
        let* j := scan_code (length bin_str) bin_str encoding_to_char i j in
        if bool_decide (length bin_str ≤ j)%nat then Ok original
        else
          let* char := dict_getitem encoding_to_char (slice bin_str i j) in
          decode_loop fuel' bin_str encoding_to_char (original ++ char) j
    end
  else Ok original.

(** Lines 162 to 176: the string [original] that [decode] computes from the
    pickled triple. *)
Definition decode_str (hex_str : str) (char_to_encoding : dict str str)
    (num_zeros_to_add : nat) : result str :=
  let* bin_str := unpack hex_str num_zeros_to_add in
  let encoding_to_char := dict_invert char_to_encoding in
  decode_loop (length bin_str) bin_str encoding_to_char [] 0.

(** ** Files

    [Text s] is a file that holds the characters [s] as they are stored:
    for ASCII contents one byte per character, whatever the encoding of
    the locale; for other contents [s] stands for the characters that the
    codec of the locale gives. A file that the codec rejects behaves as a
    pickled file does: reading it as text raises [UnicodeDecodeError].
    [Pickle] is a file written by [pickle.dump] in binary mode.

    The line separator of the system is taken to be a newline, as on every
    POSIX system, so that a write in text mode stores the characters it is
    given. *)

Inductive file_data : Type :=
| Text (s : str)
| Pickle (hex_str : str) (char_to_encoding : dict str str)
    (num_zeros_to_add : nat).

Abbreviation files := (gmap string file_data) (only parsing).

Definition newline : ascii := "010"%char.
Definition carriage_return : ascii := "013"%char.

(** The translation of a read in text mode with [newline=None], the default
    of [open]: a carriage return followed by a newline, and a carriage
    return alone, are read as one newline. *)
Fixpoint universal_newlines (s : str) : str :=
  match s with
  | [] => []
  | c :: s' =>
      if bool_decide (c = carriage_return) then
        newline ::
          match s' with
          | c' :: s'' =>
              if bool_decide (c' = newline) then universal_newlines s''
              else universal_newlines s'
          | [] => []
          end
      else c :: universal_newlines s'
  end.

(** [open(file).read()]: a text file gives its contents with the newlines
    translated, a pickled file does not decode as text. *)
Definition read_text (fs : files) (file : string) : result str :=
  match fs !! file with
  | Some (Text s) => Ok (universal_newlines s)
  | Some (Pickle _ _ _) => Raise UnicodeDecodeError
  | None => Raise FileNotFoundError
  end.

(** [pickle.load(open(file, 'rb'))] *)
Definition read_pickle (fs : files) (file : string)
    : result (str * dict str str * nat) :=
  match fs !! file with
  | Some (Pickle hex_str char_to_encoding num_zeros_to_add) =>
      Ok (hex_str, char_to_encoding, num_zeros_to_add)
  | Some (Text _) => Raise UnpicklingError
  | None => Raise FileNotFoundError
  end.

(** [encode(file)]: an input file that cannot be opened ends the program
    with [exit(1)]. *)
Definition encode (file : string) (fs : files) : result files :=
  let* s :=
    match read_text fs file with
    | Raise FileNotFoundError => Raise (SystemExit 1)
    | r => r
    end in
  let* (hex_str, char_to_encoding, num_zeros_to_add) := encode_str s in
  let fs := delete "compressed.txt"%string fs in
  let fs :=
    <["compressed.txt"%string :=
        Pickle hex_str char_to_encoding num_zeros_to_add]> fs in
  let* (hs, mapping, add_zero) := read_pickle fs "compressed.txt" in
  let* _ := assert (dict_eq mapping char_to_encoding) in
  Ok fs.

(** [decode(file)]: [decoded.txt] gets [original] and a newline. *)
Definition decode (file : string) (fs : files) : result files :=
  let* (hex_str, char_to_encoding, num_zeros_to_add) := read_pickle fs file in
  let* original := decode_str hex_str char_to_encoding num_zeros_to_add in
  let fs := delete "decoded.txt"%string fs in
  Ok (<["decoded.txt"%string := Text (original ++ ["010"%char])]> fs).

(** ** The merge loop as the specification words it

    "Repeatedly pop the two nodes with smallest count, create an internal
    node whose children are the popped nodes [...] with count = sum, and
    push it back, until one node remains: the root." *)

Fixpoint build_tree_until_one (fuel : nat) (queue : list TreeNode)
    : result TreeNode :=
  match fuel with
  | O => OutOfFuel
  | S fuel' =>
      let* (node1, queue) := heappop queue in
      let* (node2, queue) := heappop queue in
      let* queue := heappush queue (merge node1 node2) in
      match queue with
      | [root] => Ok root
      | _ => build_tree_until_one fuel' queue
      end
  end.

Definition huffman_tree_until_one (s : str) : result TreeNode :=
  let freqs := make_dict s in
  let* queue := make_heap freqs in
  build_tree_until_one (S (length queue)) queue.

(** * Notions used in the statements *)

(** [sum(freqs.values())] *)
Definition sum_values {K} (d : dict K Z) : Z :=
  foldr (λ kv acc, kv.2 + acc) 0 d.

(** The input has at least two distinct symbols. *)
Definition two_distinct (s : str) : Prop :=
  ∃ a b, a ≠ b ∧ a ∈ s ∧ b ∈ s.

(** A node on the heap is a fresh leaf of positive frequency or the merge
    of two such nodes. *)
Inductive merged : TreeNode → Prop :=
| merged_leaf c f : 0 < f → merged (TreeNode_init [c] f)
| merged_node node1 node2 :
    merged node1 → merged node2 → merged (merge node1 node2).

(** Every node has no child or two, and the frequency of a node with
    children is the sum of theirs. *)
Fixpoint children_sum (node : TreeNode) : Prop :=
  match node with
  | mkTreeNode _ f lft rgt _ =>
      match lft, rgt with
      | None, None => True
      | Some l, Some r => f = freq l + freq r ∧ children_sum l ∧ children_sum r
      | _, _ => False
      end
  end.

Definition sum_freq (heap : list TreeNode) : Z :=
  foldr (λ node acc, freq node + acc) 0 heap.

(** The leaf symbols of all the nodes of a heap. *)
Definition letters (heap : list TreeNode) : str :=
  mjoin (letter <$> heap).

(** The leaf pushed for an entry of the frequency table. *)
Definition leaf_of (kv : ascii * Z) : TreeNode := TreeNode_init [kv.1] kv.2.

(** No code of the list is a prefix of a code at another position. *)
Definition prefix_free (codes : list str) : Prop :=
  ∀ i j x y,
    codes !! i = Some x → codes !! j = Some y → i ≠ j → ¬ x `prefix_of` y.

Definition is_bit (c : ascii) : Prop := c = "0"%char ∨ c = "1"%char.

(** The entry of the code book that a discovered leaf gives. *)
Definition entry (leaf : TreeNode) : str * str := (letter leaf, encoding leaf).

(** What the code book of an input [s] satisfies. *)
Definition good_book (book : dict str str) (s : str) : Prop :=
  NoDup book.*1 ∧
  (∀ c, [c] ∈ book.*1 ↔ c ∈ s) ∧
  prefix_free book.*2 ∧
  Forall (λ code, code ≠ [] ∧ Forall is_bit code) book.*2.

(** The code of a symbol in a book. *)
Definition code_of (book : dict str str) (c : ascii) : str :=
  default [] (dict_get book [c]).

(** The symbol [c] is decoded from its code. *)
Definition decodable (encoding_to_char : dict str str) (code : ascii → str)
    (c : ascii) : Prop :=
  dict_get encoding_to_char (code c) = Some [c] ∧ code c ≠ [].

(** The concatenated codes [int_str] that [encode] computes for [s]. *)
Definition int_str_of (s : str) : result str :=
  let* char_to_encoding := code_book s in
  join_codes char_to_encoding s.

(** [str.isascii()]: every character is below 128. The bytes of such a
    file are its characters in every encoding that a locale uses. *)
Definition isascii (s : str) : bool :=
  forallb (λ c, (N_of_ascii c <? 128)%N) s.

(** No non-empty proper prefix of [code] is a key of the inverted book:
    the scan of decode, which tries the prefixes from the shortest, finds
    no match before [code]. *)
Definition no_key_before (encoding_to_char : dict str str) (code : str)
    : Prop :=
  ∀ p, p `prefix_of` code → p ≠ [] → p ≠ code →
       dict_get encoding_to_char p = None.

(** The scenario of [encode_decode_test] for the file contents [s]: encode
    the file, decode [compressed.txt], read [decoded.txt]. *)
Definition encode_decode (s : str) : result str :=
  let fs : files := {["encode-test.txt"%string := Text s]} in
  let* fs := encode "encode-test.txt" fs in
  let* fs := decode "compressed.txt" fs in
  read_text fs "decoded.txt".

(** What a run of [encode] leaves in [compressed.txt], or how it failed. *)
Definition pickled (run : result files) : result (option file_data) :=
  let* fs := run in Ok (fs !! "compressed.txt"%string).

(** The tree of [tree_dfs_test]. *)
Definition test_tree : TreeNode :=
  let c := TreeNode_init (py "c") 5 in
  let d := TreeNode_init (py "d") 2 in
  let a := mkTreeNode (py "a") 4 (Some c) None [] in
  let b := mkTreeNode (py "b") 3 None (Some d) [] in
  mkTreeNode (py "r") 10 (Some a) (Some b) [].

(** The symbol and the frequency of each leaf that [tree_dfs] finds. *)
Definition leaf_table (node : option TreeNode) : list (str * Z) :=
  (λ leaf, (letter leaf, freq leaf)) <$> tree_dfs node [] [].

(** The first occurrences of the symbols of the input, in order. *)
Definition first_occurrences (data : str) : list ascii :=
  reverse (remove_dups (reverse data)).

(** ** Notions for the order of the heap *)

(** The invariant that heapq documents: [heap[k] <= heap[2*k+1]] and
    [heap[k] <= heap[2*k+2]], for the comparison of nodes by frequency. *)
Definition heap_ordered (heap : list TreeNode) : Prop :=
  ∀ k node child,
    heap !! k = Some node →
    heap !! (2 * k + 1)%nat = Some child ∨
    heap !! (2 * k + 2)%nat = Some child →
    freq node ≤ freq child.

(** The frequency at an index of the heap. *)
Definition key (heap : list TreeNode) (i : nat) : Z :=
  from_option freq 0 (heap !! i).

(** The frequencies of the heap with an item of frequency [a] at [pos]. *)
Definition val (heap : list TreeNode) (pos : nat) (a : Z) (i : nat) : Z :=
  if decide (i = pos) then a else key heap i.

Definition ordered_keys (heap : list TreeNode) : Prop :=
  ∀ i, (0 < i < length heap)%nat → key heap (Nat.div2 (i - 1)) ≤ key heap i.

(** The state of [_siftdown]: with the new item at [pos] every node but
    [pos] is at least its parent, and the children of [pos] are at least
    the parent of [pos]. *)
Definition ordered_but_parent (heap : list TreeNode) (pos : nat) (a : Z)
    : Prop :=
  (∀ i, (0 < i < length heap)%nat → i ≠ pos →
        val heap pos a (Nat.div2 (i - 1)) ≤ val heap pos a i) ∧
  (∀ c, (0 < pos)%nat → (c < length heap)%nat →
        (c = 2 * pos + 1 ∨ c = 2 * pos + 2)%nat →
        key heap (Nat.div2 (pos - 1)) ≤ key heap c).

(** The state of [_siftup]: the cell at [pos] is free, the nodes that are
    neither [pos] nor its children are at least their parents, and the
    children of [pos] are at least the parent of [pos]. *)
Definition ordered_but_hole (heap : list TreeNode) (pos : nat) : Prop :=
  (∀ i, (0 < i < length heap)%nat → i ≠ pos → Nat.div2 (i - 1) ≠ pos →
        key heap (Nat.div2 (i - 1)) ≤ key heap i) ∧
  (∀ c, (0 < pos)%nat → (c < length heap)%nat →
        (c = 2 * pos + 1 ∨ c = 2 * pos + 2)%nat →
        key heap (Nat.div2 (pos - 1)) ≤ key heap c).

(** The heaps that the merge loop of [encode] goes through for the input
    [s]: the heap of the leaves, and the heap after each iteration that
    does not leave the loop. *)
Inductive loop_state (s : str) : list TreeNode → Prop :=
| loop_start minheap :
    make_heap (make_dict s) = Ok minheap → loop_state s minheap
| loop_next minheap node1 heap1 node2 heap2 minheap' :
    loop_state s minheap →
    heappop minheap = Ok (node1, heap1) →
    heappop heap1 = Ok (node2, heap2) →
    freq (merge node1 node2) ≠ Z.of_nat (length s) →
    heappush heap2 (merge node1 node2) = Ok minheap' →
    loop_state s minheap'.

(** ** The unit tests and the main program

    [print] is not modelled. A test that passes returns the files it
    leaves; [exit(n)] is [Raise (SystemExit n)]. *)

(** [os.remove(path)] outside a [try]. *)
Definition os_remove (path : string) (fs : files) : result files :=
  match fs !! path with
  | Some _ => Ok (delete path fs)
  | None => Raise FileNotFoundError
  end.

Definition run_make_dict_test : result unit :=
  let data := py "abracadabra" in
  let freqs := make_dict data in
  let* _ := assert (dict_contains freqs "a"%char &&
                    (default 0 (dict_get freqs "a"%char) =? 5)) in
  let* _ := assert (dict_contains freqs "b"%char &&
                    (default 0 (dict_get freqs "b"%char) =? 2)) in
  let* _ := assert (dict_contains freqs "r"%char &&
                    (default 0 (dict_get freqs "r"%char) =? 2)) in
  assert (dict_contains freqs "c"%char &&
          (default 0 (dict_get freqs "c"%char) =? 1)).

Definition run_encode_decode_test (fs : files) : result files :=
  let fs :=
    <["encode-test.txt"%string := Text (py "abracadabra" ++ ["010"%char])]>
      fs in
  let* fs := encode "encode-test.txt" fs in
  let* fs := decode "compressed.txt" fs in
  let* original := read_text fs "encode-test.txt" in
  let* decoded := read_text fs "decoded.txt" in
  let* _ := assert (bool_decide (original = decoded)) in
  let* fs := os_remove "encode-test.txt" fs in
  let* fs := os_remove "decoded.txt" fs in
  os_remove "compressed.txt" fs.

(** The [encoding] of the node object with the given letter after
    [tree_dfs]: the objects appended to [leaves] are the nodes of the tree
    themselves, and a node that was not reached keeps [""]. *)
Definition encoding_after (leaves : list TreeNode) (letter_ : str) : str :=
  match list_find (λ leaf, letter leaf = letter_) leaves with
  | Some (_, leaf) => encoding leaf
  | None => []
  end.

Definition run_tree_dfs_test : result unit :=
  let leaves := tree_dfs (Some test_tree) [] [] in
  let* _ := assert (bool_decide (encoding_after leaves (py "c") = py "00")) in
  assert (bool_decide (encoding_after leaves (py "d") = py "11")).

Definition run_tests (fs : files) : result files :=
  let* _ := run_make_dict_test in
  let* fs := run_encode_decode_test fs in
  let* _ := run_tree_dfs_test in
  Raise (SystemExit 0).

(** [print(USAGE_STR); exit(1)] *)
Definition usage : result files := Raise (SystemExit 1).

(** The main program, for [sys.argv] and the files that exist. *)
Definition main (argv : list string) (fs : files) : result files :=
  if bool_decide (length argv < 2)%nat then usage
  else
    let* fs :=
      if bool_decide (length argv = 2%nat) then
        if bool_decide (argv !! 1%nat ≠ Some "test"%string) then usage
        else run_tests fs
      else Ok fs in
    if bool_decide (length argv ≠ 3%nat) then usage
    else if bool_decide (argv !! 1%nat = Some "encode"%string) then
      encode (default ""%string (argv !! 2%nat)) fs
    else if bool_decide (argv !! 1%nat = Some "decode"%string) then
      decode (default ""%string (argv !! 2%nat)) fs
    else usage.

(** * Properties *)

(** ** The result monad *)

Lemma bind_Ok {A B} (m : result A) (k : A → result B) (b : B) :
  bind m k = Ok b ↔ ∃ a, m = Ok a ∧ k a = Ok b.
Proof.
  destruct m; simpl; split; try (intros [? [? ?]]); try discriminate; eauto.
  congruence.
Qed.

(** ** Arrays *)

Section array_facts.
Context {A : Type}.
Implicit Types (l : list A) (x y : A) (i j : nat).

Lemma list_get_Ok l i x : list_get l i = Ok x ↔ l !! i = Some x.
Proof. unfold list_get. destruct (l !! i); split; congruence. Qed.

Lemma list_get_lt l i : (i < length l)%nat → ∃ x, list_get l i = Ok x.
Proof.
  intros Hi. destruct (lookup_lt_is_Some_2 l i Hi) as [x Hx].
  exists x. by apply list_get_Ok.
Qed.

Lemma list_set_lt l i x :
  (i < length l)%nat → list_set l i x = Ok (<[i:=x]> l).
Proof. intros Hi. unfold list_set. by rewrite decide_True. Qed.

(** Writing [x] over the hole at [j] and [y] back at [i], where [y] was
    read, only exchanges two cells. *)
Lemma insert_cons_swap l j x y :
  (j < length l)%nat → x :: <[j:=y]> l ≡ₚ y :: <[j:=x]> l.
Proof.
  revert j. induction l as [|z l IH]; intros [|j] Hj; simpl in *; try lia.
  - apply perm_swap.
  - rewrite (perm_swap z x), (perm_swap z y).
    apply perm_skip, IH. lia.
Qed.

Lemma insert_move_hole l i j x y :
  l !! i = Some y → (j < length l)%nat →
  <[i:=x]> (<[j:=y]> l) ≡ₚ <[j:=x]> l.
Proof.
  revert i j. induction l as [|z l IH]; intros [|i] [|j] Hi Hj;
    simpl in *; try lia; try discriminate.
  - by simplify_eq.
  - simplify_eq. apply insert_cons_swap. lia.
  - rewrite <-(list_insert_id l i y) at 2 by done.
    apply insert_cons_swap. by eapply lookup_lt_Some.
  - apply perm_skip, IH; [done|lia].
Qed.

Lemma list_pop_snoc l x : list_pop (l ++ [x]) = Ok (x, l).
Proof. unfold list_pop. by rewrite last_snoc, removelast_last. Qed.

Lemma list_pop_nil : list_pop (@nil A) = Raise IndexError.
Proof. done. Qed.
End array_facts.

(** ** heapq: every operation succeeds and keeps the elements *)

Ltac bind_ok H :=
  let a := fresh "a" in
  apply bind_Ok in H as [a [? H]].

Lemma _siftdown_loop_Ok fuel heap newitem startpos pos :
  (pos ≤ fuel)%nat → (pos < length heap)%nat →
  ∃ heap' pos',
    _siftdown_loop fuel heap newitem startpos pos = Ok (heap', pos') ∧
    (pos' < length heap')%nat ∧
    <[pos':=newitem]> heap' ≡ₚ <[pos:=newitem]> heap.
Proof.
  revert heap pos.
  induction fuel as [|fuel IH]; intros heap pos Hfuel Hpos; simpl.
  { rewrite decide_False by lia. eauto. }
  destruct (decide (startpos < pos)%nat) as [Hlt|]; [|by eauto].
  assert (Nat.div2 (pos - 1) < pos)%nat as Hparent.
  { destruct pos as [|[|pos]]; simpl; try lia.
    pose proof (Nat.le_div2 pos). simpl in *. lia. }
  destruct (list_get_lt heap (Nat.div2 (pos - 1))) as [parent Hget]; [lia|].
  rewrite Hget. simpl.
  destruct (TreeNode_lt newitem parent); [|by eauto].
  rewrite list_set_lt by done. simpl.
  destruct (IH (<[pos:=parent]> heap) (Nat.div2 (pos - 1)))
    as (heap' & pos' & -> & Hpos' & Hperm).
  { lia. } { rewrite length_insert. lia. }
  exists heap', pos'. split_and!; [done..|].
  rewrite Hperm. apply insert_move_hole; [|done].
  by apply list_get_Ok.
Qed.

Lemma _siftdown_Ok heap startpos pos :
  (pos < length heap)%nat →
  ∃ heap', _siftdown heap startpos pos = Ok heap' ∧ heap' ≡ₚ heap.
Proof.
  intros Hpos. unfold _siftdown.
  destruct (list_get_lt heap pos Hpos) as [newitem Hget].
  rewrite Hget. simpl.
  destruct (_siftdown_loop_Ok pos heap newitem startpos pos)
    as (heap' & pos' & -> & Hpos' & Hperm); [done..|].
  simpl. rewrite list_set_lt by done.
  eexists. split; [done|].
  rewrite Hperm, list_insert_id; [done|]. by apply list_get_Ok.
Qed.

Lemma _siftup_loop_Ok fuel heap pos childpos :
  (length heap ≤ fuel + pos)%nat → (pos < length heap)%nat →
  (pos < childpos)%nat →
  ∃ heap' pos',
    _siftup_loop fuel heap (length heap) pos childpos = Ok (heap', pos') ∧
    (pos' < length heap')%nat ∧
    ∀ x, <[pos':=x]> heap' ≡ₚ <[pos:=x]> heap.
Proof.
  revert heap pos childpos.
  induction fuel as [|fuel IH]; intros heap pos childpos Hfuel Hpos Hchild;
    simpl.
  { rewrite decide_False by lia. eauto. }
  destruct (decide (childpos < length heap)%nat) as [Hlt|]; [|by eauto].
  set (pick := if decide (childpos + 1 < length heap)%nat then _ else _).
  assert (∃ c, pick = Ok c ∧ (pos < c < length heap)%nat) as (c & -> & Hc).
  { subst pick. destruct (decide (childpos + 1 < length heap)%nat).
    - destruct (list_get_lt heap childpos) as [lc ->]; [done|].
      destruct (list_get_lt heap (childpos + 1)) as [rc ->]; [done|].
      simpl. destruct (negb (TreeNode_lt lc rc)); eexists; split; done || lia.
    - eexists; split; done || lia. }
  simpl. destruct (list_get_lt heap c) as [child Hget]; [lia|].
  rewrite Hget. simpl. rewrite list_set_lt by done. simpl.
  pose proof (length_insert heap pos child) as Hlen.
  match goal with
  | |- context [_siftup_loop fuel _ _ c ?k] =>
      destruct (IH (<[pos:=child]> heap) c k)
        as (heap' & pos' & Hrun & Hpos' & Hperm); [lia..|]
  end.
  rewrite Hlen in Hrun. rewrite Hrun.
  exists heap', pos'. split_and!; [done..|].
  intros x. rewrite Hperm. apply insert_move_hole; [|done].
  by apply list_get_Ok.
Qed.

Lemma _siftup_Ok heap pos :
  (pos < length heap)%nat →
  ∃ heap', _siftup heap pos = Ok heap' ∧ heap' ≡ₚ heap.
Proof.
  intros Hpos. unfold _siftup.
  destruct (list_get_lt heap pos Hpos) as [newitem Hget].
  rewrite Hget. cbn [bind].
  destruct (_siftup_loop_Ok (length heap) heap pos (2 * pos + 1))
    as (heap' & pos' & -> & Hpos' & Hperm); [lia..|].
  simpl. rewrite list_set_lt by done. simpl.
  destruct (_siftdown_Ok (<[pos':=newitem]> heap') pos pos')
    as (heap'' & -> & Hperm'); [by rewrite length_insert|].
  eexists. split; [done|].
  rewrite Hperm', Hperm, list_insert_id; [done|]. by apply list_get_Ok.
Qed.

Lemma heappush_Ok heap item :
  ∃ heap', heappush heap item = Ok heap' ∧ heap' ≡ₚ item :: heap.
Proof.
  unfold heappush.
  destruct (_siftdown_Ok (heap ++ [item]) 0 (length (heap ++ [item]) - 1))
    as (heap' & -> & Hperm); [rewrite length_app; simpl; lia|].
  eexists. split; [done|]. by rewrite Hperm, Permutation_app_comm.
Qed.

Lemma heappop_nil : heappop [] = Raise IndexError.
Proof. done. Qed.

Lemma heappop_Ok heap :
  heap ≠ [] →
  ∃ item heap', heappop heap = Ok (item, heap') ∧ heap ≡ₚ item :: heap'.
Proof.
  intros Hne. destruct (exists_last Hne) as (l & lastelt & ->).
  unfold heappop. rewrite list_pop_snoc. simpl.
  destruct l as [|returnitem l].
  { eexists _, _. split; done. }
  change (list_get (returnitem :: l) 0) with (Ok returnitem). cbn [bind].
  rewrite list_set_lt by (simpl; lia). cbn [bind insert list_insert].
  destruct (_siftup_Ok (lastelt :: l) 0) as (heap' & -> & Hperm);
    [simpl; lia|].
  eexists _, _. split; [done|].
  rewrite Hperm. simpl. apply perm_skip.
  by rewrite Permutation_app_comm.
Qed.

(** ** Dicts *)

Section dict_facts.
Context {K V : Type} `{EqDecision K}.
Implicit Types (d : dict K V) (k : K) (v : V).

Lemma dict_get_None d k : dict_get d k = None ↔ k ∉ d.*1.
Proof.
  induction d as [|[k' v'] d IH]; simpl.
  - split; [intros _; apply not_elem_of_nil|done].
  - rewrite not_elem_of_cons. destruct (decide (k = k')); [|tauto].
    split; [done|tauto].
Qed.

Lemma dict_get_Some_elem d k v : dict_get d k = Some v → (k, v) ∈ d.
Proof.
  induction d as [|[k' v'] d IH]; simpl; [done|].
  destruct (decide (k = k')) as [->|]; intros Hv.
  - simplify_eq. apply list_elem_of_here.
  - apply list_elem_of_further; auto.
Qed.

Lemma dict_get_elem d k v :
  NoDup d.*1 → (k, v) ∈ d → dict_get d k = Some v.
Proof.
  induction d as [|[k' v'] d IH]; simpl; intros Hnd Hin.
  - by apply elem_of_nil in Hin.
  - apply NoDup_cons in Hnd as [Hk' Hnd].
    apply elem_of_cons in Hin as [Heq|Hin].
    + simplify_eq. by rewrite decide_True.
    + rewrite decide_False; [auto|].
      intros ->. apply Hk'. apply list_elem_of_fmap. by exists (k', v).
Qed.

Lemma dict_contains_true d k : dict_contains d k = true ↔ k ∈ d.*1.
Proof.
  unfold dict_contains. pose proof (dict_get_None d k) as Hnone.
  destruct (dict_get d k); split; try done.
  - intros _. destruct (decide (k ∈ d.*1)); [done|].
    by apply Hnone in n.
  - intros Hin. by apply Hnone in Hin.
Qed.

Lemma dict_contains_false d k : dict_contains d k = false ↔ k ∉ d.*1.
Proof.
  rewrite <-dict_contains_true. destruct (dict_contains d k); split; done.
Qed.

Lemma dict_setitem_fresh d k v :
  k ∉ d.*1 → dict_setitem d k v = d ++ [(k, v)].
Proof.
  induction d as [|[k' v'] d IH]; simpl; [done|].
  rewrite not_elem_of_cons. intros [Hne Hin].
  rewrite decide_False by done. by rewrite IH.
Qed.

Lemma dict_setitem_keys_present d k v :
  k ∈ d.*1 → (dict_setitem d k v).*1 = d.*1.
Proof.
  induction d as [|[k' v'] d IH]; simpl; intros Hin.
  - by apply elem_of_nil in Hin.
  - destruct (decide (k = k')); [done|]. simpl. f_equal.
    apply IH. apply elem_of_cons in Hin as [?|?]; done.
Qed.

Lemma dict_setitem_keys d k v :
  (dict_setitem d k v).*1 = if decide (k ∈ d.*1) then d.*1 else d.*1 ++ [k].
Proof.
  destruct (decide (k ∈ d.*1)).
  - by apply dict_setitem_keys_present.
  - rewrite dict_setitem_fresh by done. by rewrite fmap_app.
Qed.

Lemma dict_setitem_NoDup d k v :
  NoDup d.*1 → NoDup (dict_setitem d k v).*1.
Proof.
  intros Hnd. rewrite dict_setitem_keys. case_decide; [done|].
  apply NoDup_app. split_and!; [done| |apply NoDup_singleton].
  intros x Hx ->%list_elem_of_singleton. done.
Qed.

(** Building a dict from entries with distinct keys keeps the entries
    in order. *)
Lemma fold_setitem_NoDup {X} (key : X → K) (val : X → V) (l : list X) d :
  NoDup (d.*1 ++ (key <$> l)) →
  fold_left (λ acc x, dict_setitem acc (key x) (val x)) l d =
  d ++ ((λ x, (key x, val x)) <$> l).
Proof.
  revert d. induction l as [|x l IH]; intros d Hnd; simpl.
  - by rewrite app_nil_r.
  - assert (key x ∉ d.*1) as Hfresh.
    { apply NoDup_app in Hnd as (_ & Hdisj & _).
      intros Hin. apply (Hdisj _ Hin). apply list_elem_of_here. }
    rewrite dict_setitem_fresh by done.
    rewrite IH.
    + by rewrite <-app_assoc.
    + rewrite fmap_app, <-app_assoc. done.
Qed.
End dict_facts.

Lemma dict_invert_NoDup {K V} `{EqDecision V} (d : dict K V) :
  NoDup d.*2 → dict_invert d = (λ kv, (kv.2, kv.1)) <$> d.
Proof.
  intros Hnd. unfold dict_invert.
  by rewrite (fold_setitem_NoDup snd fst).
Qed.

(** ** make_dict *)

Lemma sum_values_setitem {K} `{EqDecision K} (d : dict K Z) k v :
  sum_values (dict_setitem d k v) =
  sum_values d - default 0 (dict_get d k) + v.
Proof.
  induction d as [|[k' v'] d IH]; simpl; [lia|].
  destruct (decide (k = k')); simpl; [lia|]. rewrite IH. lia.
Qed.

Lemma dict_setitem_Forall {K V} `{EqDecision K} (P : V → Prop)
    (d : dict K V) k v :
  Forall (λ kv, P kv.2) d → P v →
  Forall (λ kv, P kv.2) (dict_setitem d k v).
Proof.
  intros Hd Hv. induction Hd as [|[k' v'] d Hkv Hd IH]; simpl.
  - by repeat constructor.
  - destruct (decide (k = k')); constructor; done.
Qed.

Lemma dict_get_Forall {K V} `{EqDecision K} (P : V → Prop)
    (d : dict K V) k v :
  Forall (λ kv, P kv.2) d → dict_get d k = Some v → P v.
Proof.
  intros Hd Hget%dict_get_Some_elem.
  by apply (proj1 (Forall_forall _ _) Hd (k, v)).
Qed.

Lemma make_dict_snoc s c :
  make_dict (s ++ [c]) =
  dict_setitem (make_dict s) c
    (default 0 (dict_get (make_dict s) c) + 1).
Proof. unfold make_dict. by rewrite fold_left_app. Qed.

Lemma make_dict_NoDup s : NoDup (make_dict s).*1.
Proof.
  induction s as [|c s IH] using rev_ind; [apply NoDup_nil_2|].
  rewrite make_dict_snoc. by apply dict_setitem_NoDup.
Qed.

Lemma make_dict_keys s c : c ∈ (make_dict s).*1 ↔ c ∈ s.
Proof.
  induction s as [|c' s IH] using rev_ind; [done|].
  rewrite make_dict_snoc, dict_setitem_keys, elem_of_app,
    list_elem_of_singleton.
  case_decide as Hin.
  - rewrite IH. split; [tauto|]. intros [?| ->]; [done|]. by apply IH.
  - rewrite elem_of_app, list_elem_of_singleton, IH. done.
Qed.

Lemma make_dict_positive s : Forall (λ kv, 0 < kv.2) (make_dict s).
Proof.
  induction s as [|c s IH] using rev_ind; [constructor|].
  rewrite make_dict_snoc. apply dict_setitem_Forall; [done|].
  destruct (dict_get (make_dict s) c) as [v|] eqn:Hget; simpl; [|lia].
  pose proof (dict_get_Forall _ _ _ _ IH Hget). simpl in *. lia.
Qed.

Lemma make_dict_sum s : sum_values (make_dict s) = Z.of_nat (length s).
Proof.
  induction s as [|c s IH] using rev_ind; [done|].
  rewrite make_dict_snoc, sum_values_setitem, IH, length_app. simpl. lia.
Qed.

Lemma NoDup_two_elems {A} (l : list A) a b :
  NoDup l → a ≠ b → a ∈ l → b ∈ l → (2 ≤ length l)%nat.
Proof.
  intros Hnd Hne Ha Hb. destruct l as [|x [|y l]]; simpl; try lia.
  - by apply elem_of_nil in Ha.
  - apply list_elem_of_singleton in Ha, Hb. congruence.
Qed.

Lemma make_dict_two_distinct s :
  two_distinct s ↔ (2 ≤ length (make_dict s))%nat.
Proof.
  split.
  - intros (a & b & Hne & Ha & Hb).
    rewrite <-(length_fmap fst).
    apply (NoDup_two_elems _ a b); auto using make_dict_NoDup;
      by apply make_dict_keys.
  - intros Hlen. pose proof (make_dict_NoDup s) as Hnd.
    pose proof (make_dict_keys s) as Hkeys.
    destruct (make_dict s) as [|[a va] [|[b vb] d]]; simpl in *; try lia.
    exists a, b. split_and!.
    + intros ->. apply NoDup_cons in Hnd as [Hnd _]. apply Hnd.
      apply list_elem_of_here.
    + apply Hkeys, list_elem_of_here.
    + apply Hkeys, list_elem_of_further, list_elem_of_here.
Qed.

(** ** The nodes on the heap *)

Lemma merged_positive node : merged node → 0 < freq node.
Proof. induction 1; simpl; lia. Qed.

Lemma sum_freq_Permutation heap heap' :
  heap ≡ₚ heap' → sum_freq heap = sum_freq heap'.
Proof. induction 1; simpl; lia. Qed.

Lemma letters_Permutation heap heap' :
  heap ≡ₚ heap' → letters heap ≡ₚ letters heap'.
Proof. intros Hperm. unfold letters. by rewrite Hperm. Qed.

Lemma sum_freq_nonneg heap : Forall merged heap → 0 ≤ sum_freq heap.
Proof.
  induction 1 as [|node heap Hnode%merged_positive _ IH]; simpl; lia.
Qed.

Lemma sum_freq_zero heap : Forall merged heap → sum_freq heap = 0 → heap = [].
Proof.
  intros Hheap Hsum. destruct Hheap as [|node heap Hnode Hheap]; [done|].
  apply merged_positive in Hnode. apply sum_freq_nonneg in Hheap.
  simpl in Hsum. lia.
Qed.

Lemma heappop_singleton node : heappop [node] = Ok (node, []).
Proof. done. Qed.

(** Two pops from a heap of at least two nodes. *)
Lemma heappop_twice heap :
  (2 ≤ length heap)%nat →
  ∃ node1 heap1 node2 heap2,
    heappop heap = Ok (node1, heap1) ∧ heappop heap1 = Ok (node2, heap2) ∧
    heap ≡ₚ node1 :: node2 :: heap2.
Proof.
  intros Hlen.
  destruct (heappop_Ok heap) as (node1 & heap1 & Hpop1 & Hperm1).
  { intros ->. simpl in Hlen. lia. }
  destruct (heappop_Ok heap1) as (node2 & heap2 & Hpop2 & Hperm2).
  { intros ->. apply Permutation_length in Hperm1. simpl in Hperm1. lia. }
  exists node1, heap1, node2, heap2. split_and!; [done..|].
  by rewrite Hperm1, Hperm2.
Qed.

Lemma heappop_Permutation heap item heap' :
  heappop heap = Ok (item, heap') → heap ≡ₚ item :: heap'.
Proof.
  intros Hpop. destruct heap as [|node heap]; [done|].
  destruct (heappop_Ok (node :: heap)) as (item' & heap'' & Hpop' & Hperm);
    [done|].
  rewrite Hpop in Hpop'. by simplify_eq.
Qed.

(** The merged frequency reaches the total exactly when the two pops have
    emptied the heap. *)
Lemma exit_iff_emptied heap n node1 heap1 node2 heap2 :
  Forall merged heap → sum_freq heap = n →
  heappop heap = Ok (node1, heap1) → heappop heap1 = Ok (node2, heap2) →
  freq (merge node1 node2) = n ↔ heap2 = [].
Proof.
  intros Hheap Hsum Hpop1%heappop_Permutation Hpop2%heappop_Permutation.
  rewrite Hpop2 in Hpop1.
  rewrite (sum_freq_Permutation _ _ Hpop1) in Hsum.
  rewrite Hpop1 in Hheap.
  apply Forall_cons in Hheap as [_ Hheap].
  apply Forall_cons in Hheap as [_ Hheap].
  simpl in *. split.
  - intros Hexit. apply sum_freq_zero; [done|lia].
  - intros ->. simpl in Hsum. lia.
Qed.

(** ** make_heap *)

Lemma make_heap_from freqs heap0 :
  ∃ heap,
    for_each (λ minheap kv, heappush minheap (TreeNode_init [kv.1] kv.2))
      freqs heap0 = Ok heap ∧
    heap ≡ₚ heap0 ++ (leaf_of <$> freqs).
Proof.
  revert heap0. induction freqs as [|kv freqs IH]; intros heap0; simpl.
  - exists heap0. by rewrite app_nil_r.
  - destruct (heappush_Ok heap0 (TreeNode_init [kv.1] kv.2))
      as (heap1 & -> & Hperm1).
    simpl. destruct (IH heap1) as (heap & -> & Hperm).
    exists heap. split; [done|].
    rewrite Hperm, Hperm1. simpl. apply Permutation_middle.
Qed.

Lemma make_heap_Ok freqs :
  ∃ heap, make_heap freqs = Ok heap ∧ heap ≡ₚ leaf_of <$> freqs.
Proof. apply (make_heap_from freqs []). Qed.

Lemma leaves_merged freqs :
  Forall (λ kv, 0 < kv.2) freqs → Forall merged (leaf_of <$> freqs).
Proof.
  intros Hpos. apply Forall_fmap. eapply Forall_impl; [done|].
  intros [c f] Hf. by constructor.
Qed.

Lemma leaves_sum_freq freqs : sum_freq (leaf_of <$> freqs) = sum_values freqs.
Proof.
  induction freqs as [|kv freqs IH]; [done|].
  rewrite fmap_cons. unfold sum_freq, sum_values in *. simpl. by rewrite IH.
Qed.

Lemma leaves_letters freqs : letters (leaf_of <$> freqs) = freqs.*1.
Proof.
  unfold letters. induction freqs as [|kv freqs IH]; [done|].
  rewrite !fmap_cons. simpl. by rewrite IH.
Qed.

(** ** The merge loop *)

Lemma build_tree_merged fuel heap n :
  Forall merged heap → sum_freq heap = n →
  (2 ≤ length heap ≤ S fuel)%nat →
  ∃ node1 node2,
    build_tree fuel heap n = Ok (merge node1 node2) ∧
    build_tree_until_one fuel heap = Ok (merge node1 node2) ∧
    merged (merge node1 node2) ∧
    letter (merge node1 node2) ≡ₚ letters heap.
Proof.
  revert heap. induction fuel as [|fuel IH]; intros heap Hheap Hsum Hlen;
    [lia|].
  destruct (heappop_twice heap) as (a & h1 & b & h2 & Ha & Hb & Hperm);
    [lia|].
  simpl. rewrite Ha. simpl. rewrite Hb. simpl.
  rewrite Hperm in Hheap.
  apply Forall_cons in Hheap as [Hma Hheap].
  apply Forall_cons in Hheap as [Hmb Hh2].
  rewrite (sum_freq_Permutation _ _ Hperm) in Hsum. simpl in Hsum.
  destruct (freq a + freq b =? n) eqn:Hexit.
  - apply Z.eqb_eq in Hexit.
    assert (h2 = []) as -> by (apply sum_freq_zero; [done|lia]).
    exists a, b. split_and!; [done|done|by constructor|].
    rewrite (letters_Permutation _ _ Hperm). unfold letters. simpl.
    by rewrite app_nil_r.
  - apply Z.eqb_neq in Hexit.
    destruct (heappush_Ok h2 (merge a b)) as (h3 & -> & Hperm3). simpl.
    assert (h2 ≠ []) as Hne by (intros ->; simpl in Hsum; lia).
    pose proof (Permutation_length Hperm) as Hlen1.
    pose proof (Permutation_length Hperm3) as Hlen3. simpl in Hlen1, Hlen3.
    destruct (IH h3) as (node1 & node2 & -> & Hspec & Hm & Hletters).
    + rewrite Hperm3. constructor; [by constructor|done].
    + rewrite (sum_freq_Permutation _ _ Hperm3). simpl. lia.
    + destruct h2; [done|]. simpl in *. lia.
    + exists node1, node2. split_and!; [done| |done|].
      * destruct h2; [done|].
        destruct h3 as [|x [|y h3]]; simpl in Hlen3; done || lia.
      * rewrite Hletters, (letters_Permutation _ _ Hperm3),
          (letters_Permutation _ _ Hperm).
        unfold letters. simpl. by rewrite app_assoc.
Qed.

Lemma build_tree_freq fuel heap n root :
  build_tree fuel heap n = Ok root → freq root = n.
Proof.
  revert heap. induction fuel as [|fuel IH]; intros heap; simpl; [done|].
  intros Hrun. bind_ok Hrun. destruct a as [node1 heap1].
  bind_ok Hrun. destruct a as [node2 heap2].
  match type of Hrun with
  | context [if ?c then _ else _] => destruct c eqn:Hexit
  end.
  - apply Z.eqb_eq in Hexit. by simplify_eq.
  - bind_ok Hrun. eauto.
Qed.

Lemma huffman_tree_Ok s :
  two_distinct s →
  ∃ node1 node2,
    huffman_tree s = Ok (merge node1 node2) ∧
    huffman_tree_until_one s = Ok (merge node1 node2) ∧
    merged (merge node1 node2) ∧
    letter (merge node1 node2) ≡ₚ (make_dict s).*1.
Proof.
  intros Htwo%make_dict_two_distinct.
  unfold huffman_tree, huffman_tree_until_one.
  destruct (make_heap_Ok (make_dict s)) as (heap & -> & Hperm). simpl.
  pose proof (Permutation_length Hperm) as Hlen.
  rewrite length_fmap in Hlen.
  destruct (build_tree_merged (S (length heap)) heap (Z.of_nat (length s)))
    as (node1 & node2 & Hrun & Hspec & Hm & Hletters).
  - rewrite Hperm. apply leaves_merged, make_dict_positive.
  - by rewrite (sum_freq_Permutation _ _ Hperm), leaves_sum_freq,
      make_dict_sum.
  - lia.
  - exists node1, node2. split_and!; [done..|].
    by rewrite Hletters, (letters_Permutation _ _ Hperm), leaves_letters.
Qed.

Lemma huffman_tree_fails s :
  ¬ two_distinct s → huffman_tree s = Raise IndexError.
Proof.
  rewrite make_dict_two_distinct. intros Hlen. unfold huffman_tree.
  destruct (make_heap_Ok (make_dict s)) as (heap & -> & Hperm). simpl.
  apply Permutation_length in Hperm. rewrite length_fmap in Hperm.
  destruct heap as [|node [|node' heap]]; simpl in Hperm; [done|done|lia].
Qed.

(** ** tree_dfs *)

Lemma option_TreeNode_ind (P : option TreeNode → Prop) :
  P None →
  (∀ l f lft rgt e, P lft → P rgt → P (Some (mkTreeNode l f lft rgt e))) →
  ∀ node, P node.
Proof.
  intros Hnone Hsome.
  assert (∀ node, P (Some node)) as Hall.
  { fix IH 1. intros [l f lft rgt e]. apply Hsome.
    - destruct lft as [x|]; [apply IH|exact Hnone].
    - destruct rgt as [x|]; [apply IH|exact Hnone]. }
  intros [node|]; auto.
Qed.

Lemma tree_dfs_acc node curstr leaves :
  tree_dfs node curstr leaves = leaves ++ tree_dfs node curstr [].
Proof.
  revert curstr leaves.
  induction node as [|l f lft rgt e IHl IHr] using option_TreeNode_ind;
    intros curstr leaves; simpl.
  - by rewrite app_nil_r.
  - destruct rgt as [r|], lft as [l'|]; simpl in *; try done.
    rewrite (IHl _ (tree_dfs_node r _ leaves)),
      (IHl _ (tree_dfs_node r _ [])), (IHr _ leaves).
    by rewrite app_assoc.
Qed.

Lemma tree_dfs_unfold l f lft rgt e curstr :
  tree_dfs (Some (mkTreeNode l f lft rgt e)) curstr [] =
  match rgt, lft with
  | None, None => [mkTreeNode l f None None curstr]
  | _, _ =>
      tree_dfs rgt (curstr ++ ["1"%char]) [] ++
      tree_dfs lft (curstr ++ ["0"%char]) []
  end.
Proof.
  destruct rgt as [r|], lft as [l'|]; simpl; try done.
  - apply (tree_dfs_acc (Some l')).
  - by rewrite app_nil_r.
Qed.

Lemma tree_dfs_extends node curstr :
  Forall (λ leaf, curstr `prefix_of` encoding leaf) (tree_dfs node curstr []).
Proof.
  revert curstr.
  induction node as [|l f lft rgt e IHl IHr] using option_TreeNode_ind;
    intros curstr; [constructor|].
  rewrite tree_dfs_unfold.
  assert (Forall (λ leaf, curstr `prefix_of` encoding leaf)
            (tree_dfs rgt (curstr ++ ["1"%char]) [] ++
             tree_dfs lft (curstr ++ ["0"%char]) [])) as Hboth.
  { apply Forall_app. split; (eapply Forall_impl; [apply IHr || apply IHl|]);
      intros leaf Hpre; simpl in Hpre;
      (etrans; [|exact Hpre]); by apply prefix_app_r. }
  destruct rgt, lft; try done. by repeat constructor.
Qed.

Lemma prefix_free_app codes1 codes2 :
  prefix_free codes1 → prefix_free codes2 →
  (∀ x y, x ∈ codes1 → y ∈ codes2 →
          ¬ x `prefix_of` y ∧ ¬ y `prefix_of` x) →
  prefix_free (codes1 ++ codes2).
Proof.
  intros H1 H2 Hcross i j x y Hi Hj Hne.
  apply lookup_app_Some in Hi as [Hi|[Hlei Hi]];
    apply lookup_app_Some in Hj as [Hj|[Hlej Hj]].
  - by apply (H1 i j).
  - apply (Hcross x y); by eapply list_elem_of_lookup_2.
  - apply (Hcross y x); by eapply list_elem_of_lookup_2.
  - apply (H2 (i - length codes1)%nat (j - length codes1)%nat); [done..|lia].
Qed.

Lemma prefix_free_singleton code : prefix_free [code].
Proof.
  intros [|i] [|j] x y Hi Hj Hne; simpl in *; done.
Qed.

Lemma prefix_free_nil : prefix_free [].
Proof. intros i j x y Hi. done. Qed.

(** Two codes that extend [curstr] with different bits are incomparable. *)
Lemma branches_incomparable (curstr x y : str) (a b : ascii) :
  a ≠ b → curstr ++ [a] `prefix_of` x → curstr ++ [b] `prefix_of` y →
  ¬ x `prefix_of` y.
Proof.
  intros Hne [x' ->] [y' ->] [z Hz].
  rewrite <-!app_assoc in Hz. apply app_inv_head in Hz.
  simpl in Hz. congruence.
Qed.

Lemma tree_dfs_prefix_free node curstr :
  prefix_free (encoding <$> tree_dfs node curstr []).
Proof.
  revert curstr.
  induction node as [|l f lft rgt e IHl IHr] using option_TreeNode_ind;
    intros curstr; [apply prefix_free_nil|].
  rewrite tree_dfs_unfold.
  assert (prefix_free
            (encoding <$> tree_dfs rgt (curstr ++ ["1"%char]) [] ++
                          tree_dfs lft (curstr ++ ["0"%char]) [])) as Hboth.
  { rewrite fmap_app. apply prefix_free_app; [apply IHr|apply IHl|].
    intros x y (leafx & -> & Hx)%list_elem_of_fmap
      (leafy & -> & Hy)%list_elem_of_fmap.
    pose proof (tree_dfs_extends rgt (curstr ++ ["1"%char])) as Hr.
    pose proof (tree_dfs_extends lft (curstr ++ ["0"%char])) as Hl.
    rewrite Forall_forall in Hr, Hl.
    split; eapply branches_incomparable; eauto; done. }
  destruct rgt, lft; try done. apply prefix_free_singleton.
Qed.

Lemma tree_dfs_merged node curstr :
  merged node →
  let leaves := tree_dfs (Some node) curstr [] in
  Forall (λ leaf, length (letter leaf) = 1%nat) leaves ∧
  mjoin (letter <$> leaves) ≡ₚ letter node ∧
  (Forall is_bit curstr →
   Forall (λ leaf, Forall is_bit (encoding leaf)) leaves).
Proof.
  intros Hm. revert curstr.
  induction Hm as [c f Hf|node1 node2 _ IH1 _ IH2]; intros curstr.
  - unfold TreeNode_init. cbv zeta. rewrite tree_dfs_unfold.
    split_and!; by repeat constructor.
  - unfold merge. cbv zeta. rewrite tree_dfs_unfold.
    destruct (IH1 (curstr ++ ["0"%char])) as (Hlen1 & Hperm1 & Hbits1).
    destruct (IH2 (curstr ++ ["1"%char])) as (Hlen2 & Hperm2 & Hbits2).
    split_and!.
    + apply Forall_app; done.
    + rewrite fmap_app, join_app, Hperm1, Hperm2. simpl.
      apply Permutation_app_comm.
    + intros Hcur. apply Forall_app. split.
      * apply Hbits2, Forall_app. split; [done|].
        constructor; [by right|constructor].
      * apply Hbits1, Forall_app. split; [done|].
        constructor; [by left|constructor].
Qed.

Lemma prefix_free_NoDup codes : prefix_free codes → NoDup codes.
Proof.
  intros Hfree. apply NoDup_alt. intros i j x Hi Hj.
  destruct (decide (i = j)) as [|Hne]; [done|].
  by destruct (Hfree i j x x Hi Hj Hne).
Qed.

Lemma singletons_join (ls : list str) :
  Forall (λ l, length l = 1%nat) ls → ls = (λ c, [c]) <$> mjoin ls.
Proof.
  induction 1 as [|l ls Hl _ IH]; [done|].
  destruct l as [|c [|]]; simplify_eq/=. by rewrite <-IH.
Qed.

Lemma make_encoding_to_char_from leaves encoding_to_char :
  Forall (λ leaf, length (letter leaf) = 1%nat) leaves →
  NoDup (encoding_to_char.*1 ++ (encoding <$> leaves)) →
  for_each
    (λ encoding_to_char leaf,
       let* _ := assert (bool_decide (length (letter leaf) = 1%nat)) in
       let* _ := assert (negb (dict_contains encoding_to_char (encoding leaf))) in
       Ok (dict_setitem encoding_to_char (encoding leaf) (letter leaf)))
    leaves encoding_to_char =
  Ok (encoding_to_char ++ ((λ leaf, (encoding leaf, letter leaf)) <$> leaves)).
Proof.
  intros Hlen. revert encoding_to_char.
  induction Hlen as [|leaf leaves Hleaf _ IH]; intros e2c Hnd; simpl.
  - by rewrite app_nil_r.
  - rewrite bool_decide_true by done. simpl.
    assert (encoding leaf ∉ e2c.*1) as Hfresh.
    { apply NoDup_app in Hnd as (_ & Hdisj & _).
      intros Hin. apply (Hdisj _ Hin). apply list_elem_of_here. }
    rewrite (proj2 (dict_contains_false _ _) Hfresh). simpl.
    rewrite dict_setitem_fresh by done.
    rewrite IH.
    + by rewrite <-app_assoc.
    + rewrite fmap_app, <-app_assoc. done.
Qed.

Lemma make_encoding_to_char_Ok leaves :
  Forall (λ leaf, length (letter leaf) = 1%nat) leaves →
  NoDup (encoding <$> leaves) →
  make_encoding_to_char leaves =
  Ok ((λ leaf, (encoding leaf, letter leaf)) <$> leaves).
Proof.
  intros Hlen Hnd. unfold make_encoding_to_char.
  by rewrite make_encoding_to_char_from.
Qed.

(** ** The code book *)

Lemma tree_dfs_merge_nonempty node1 node2 :
  Forall (λ leaf, encoding leaf ≠ [])
    (tree_dfs (Some (merge node1 node2)) [] []).
Proof.
  unfold merge. rewrite tree_dfs_unfold.
  apply Forall_app. split;
    (eapply Forall_impl; [apply tree_dfs_extends|]);
    intros leaf [rest Hpre] Hnil; simpl in *; rewrite Hnil in Hpre; done.
Qed.

Lemma code_book_Ok s :
  two_distinct s → ∃ book, code_book s = Ok book ∧ good_book book s.
Proof.
  intros Htwo.
  destruct (huffman_tree_Ok s Htwo)
    as (node1 & node2 & Htree & _ & Hm & Hletters).
  unfold code_book. rewrite Htree. cbn [bind].
  set (leaves := tree_dfs (Some (merge node1 node2)) [] []).
  destruct (tree_dfs_merged (merge node1 node2) [] Hm)
    as (Hlen & Hperm & Hbits).
  fold leaves in Hlen, Hperm, Hbits.
  pose proof (tree_dfs_prefix_free (Some (merge node1 node2)) []) as Hfree.
  pose proof (tree_dfs_merge_nonempty node1 node2) as Hne.
  fold leaves in Hfree, Hne.
  assert (letter <$> leaves = (λ c, [c]) <$> mjoin (letter <$> leaves))
    as Hsingle.
  { apply singletons_join. by apply Forall_fmap. }
  assert (NoDup (mjoin (letter <$> leaves))) as Hnd.
  { rewrite Hperm, Hletters. apply make_dict_NoDup. }
  assert (NoDup (letter <$> leaves)) as Hndl.
  { rewrite Hsingle. apply NoDup_fmap_2; [|done]. by intros ?? [=]. }
  rewrite make_encoding_to_char_Ok;
    [|done|by apply prefix_free_NoDup]. cbn [bind].
  rewrite dict_invert_NoDup by (by rewrite <-list_fmap_compose).
  rewrite <-list_fmap_compose.
  exists (entry <$> leaves). split; [done|]. unfold good_book.
  assert ((entry <$> leaves).*1 = letter <$> leaves) as ->
    by (by rewrite <-list_fmap_compose).
  assert ((entry <$> leaves).*2 = encoding <$> leaves) as ->
    by (by rewrite <-list_fmap_compose).
  split_and!; [done| |done|].
  - intros c. rewrite Hsingle, <-(make_dict_keys s c), <-Hletters, <-Hperm.
    split.
    + intros (c' & [= ->] & Hin)%list_elem_of_fmap. done.
    + intros Hin. apply list_elem_of_fmap. by exists c.
  - apply Forall_fmap. apply Forall_and. split; [done|].
    apply Hbits. constructor.
Qed.

Lemma code_book_fails s :
  ¬ two_distinct s → code_book s = Raise IndexError.
Proof.
  intros Hone. unfold code_book. by rewrite huffman_tree_fails.
Qed.

(** ** int, hex and bin *)

#[local] Ltac Zify.zify_post_hook ::= Z.to_euclidean_division_equations.

Lemma digit_value_char d : (d < 16)%N → digit_value (digit_char d) = Some d.
Proof.
  intros Hd.
  assert (d ∈ N.of_nat <$> seq 0 16) as Hin.
  { apply list_elem_of_fmap. exists (N.to_nat d).
    split; [by rewrite N2Nat.id|]. apply elem_of_seq. lia. }
  cbn in Hin. repeat (apply elem_of_cons in Hin as [->|Hin]; [done|]).
  by apply elem_of_nil in Hin.
Qed.

Lemma int_digits_app base acc digits1 digits2 :
  int_digits base acc (digits1 ++ digits2) =
  let* acc := int_digits base acc digits1 in int_digits base acc digits2.
Proof.
  revert acc. induction digits1 as [|c digits1 IH]; intros acc; simpl; [done|].
  destruct (digit_value c) as [d|]; [|done].
  destruct (d <? base)%N; [apply IH|done].
Qed.

Lemma format_digits_Ok fuel base n :
  (2 ≤ base ≤ 16)%N → fuel ≠ O → (n < 2 ^ N.of_nat fuel)%N →
  ∃ digits,
    format_digits fuel base n = Ok digits ∧ digits ≠ [] ∧
    int_digits base 0 digits = Ok n.
Proof.
  intros Hbase. revert n. induction fuel as [|fuel IH]; intros n Hfuel Hn;
    [done|].
  cbn [format_digits]. destruct (N.ltb_spec n base) as [Hlt|Hge].
  - exists [digit_char n]. split_and!; [done..|]. simpl.
    rewrite digit_value_char by lia.
    by rewrite (proj2 (N.ltb_lt _ _) Hlt).
  - rewrite Nat2N.inj_succ, N.pow_succ_r' in Hn.
    destruct (IH (n / base)%N) as (high & -> & _ & Hhigh).
    { intros ->. simpl in Hn. lia. }
    { apply N.Div0.div_lt_upper_bound. nia. }
    cbn [bind]. eexists. split_and!; [done|by destruct high|].
    rewrite int_digits_app, Hhigh. simpl.
    assert (n mod base < base)%N as Hmod by (apply N.mod_lt; lia).
    rewrite digit_value_char by lia.
    rewrite (proj2 (N.ltb_lt _ _) Hmod). f_equal.
    pose proof (N.div_mod n base). lia.
Qed.

Lemma fuel_log2 n : (n < 2 ^ N.of_nat (S (N.to_nat (N.log2 n))))%N.
Proof.
  rewrite Nat2N.inj_succ, N2Nat.id.
  destruct n as [|p]; [done|]. apply N.log2_spec. lia.
Qed.

Lemma bin_Ok n : ∃ digits, bin n = Ok ("0"%char :: "b"%char :: digits).
Proof.
  unfold bin.
  destruct (format_digits_Ok (S (N.to_nat (N.log2 n))) 2 n)
    as (digits & -> & _); [lia|done|apply fuel_log2|].
  by exists digits.
Qed.

Lemma hex_Ok n :
  ∃ hex_str, hex n = Ok hex_str ∧ int_ hex_str 16 = Ok n.
Proof.
  unfold hex.
  destruct (format_digits_Ok (S (N.to_nat (N.log2 n))) 16 n)
    as (digits & -> & Hne & Hint); [lia|done|apply fuel_log2|].
  eexists. split; [done|]. unfold int_.
  change (strip_base_prefix _ _) with digits. by destruct digits.
Qed.

(** Binary digit strings *)

Lemma is_bit_value c :
  is_bit c →
  ∃ d, digit_value c = Some d ∧ (d < 2)%N ∧ digit_char d = c.
Proof. intros [-> | ->]; [exists 0%N|exists 1%N]; done. Qed.

Lemma int_digits_bits acc bits :
  Forall is_bit bits →
  ∃ n, int_digits 2 acc bits = Ok n ∧ (acc ≤ n)%N.
Proof.
  intros Hbits. revert acc.
  induction Hbits as [|c bits Hc _ IH]; intros acc; simpl.
  - by exists acc.
  - destruct (is_bit_value c Hc) as (d & -> & Hd & _).
    rewrite (proj2 (N.ltb_lt _ _) Hd).
    destruct (IH (acc * 2 + d)%N) as (n & -> & Hle).
    exists n. split; [done|lia].
Qed.

Lemma int_digits_zeros k bits :
  int_digits 2 0 (replicate k "0"%char ++ bits) = int_digits 2 0 bits.
Proof. induction k as [|k IH]; [done|]. exact IH. Qed.

Lemma strip_base_prefix_bits bits :
  Forall is_bit bits → strip_base_prefix bits 2 = bits.
Proof.
  intros Hbits. destruct Hbits as [|z ? _ [|p ? Hp _]]; [done..|].
  unfold strip_base_prefix.
  destruct Hp as [-> | ->]; by rewrite !andb_false_r.
Qed.

(** [bin] gives back a digit string that starts with a one. *)
Lemma format_digits_bits fuel bits n :
  Forall is_bit bits → int_digits 2 1 bits = Ok n →
  (n < 2 ^ N.of_nat fuel)%N →
  format_digits fuel 2 n = Ok ("1"%char :: bits).
Proof.
  revert fuel n. induction bits as [|c bits IH] using rev_ind;
    intros fuel n Hbits Hn Hfuel.
  - simpl in Hn. simplify_eq. destruct fuel; [simpl in Hfuel; lia|done].
  - apply Forall_app in Hbits as [Hbits Hc]. rewrite Forall_singleton in Hc.
    rewrite int_digits_app in Hn.
    destruct (int_digits_bits 1 bits Hbits) as (v & Hv & Hle).
    rewrite Hv in Hn. simpl in Hn.
    destruct (is_bit_value c Hc) as (d & Hd & Hlt & Hchar).
    rewrite Hd, (proj2 (N.ltb_lt _ _) Hlt) in Hn. simplify_eq.
    destruct fuel as [|fuel]; [simpl in Hfuel; lia|].
    cbn [format_digits]. rewrite (proj2 (N.ltb_ge _ _)) by lia.
    rewrite Nat2N.inj_succ, N.pow_succ_r' in Hfuel.
    assert ((v * 2 + d) / 2 = v)%N as -> by lia.
    assert ((v * 2 + d) mod 2 = d)%N as -> by lia.
    by rewrite (IH fuel v) by (done || lia).
Qed.

(** A bit string is a run of zeros followed by nothing or by a string that
    starts with a one. *)
Lemma bits_split bits :
  Forall is_bit bits →
  ∃ k rest,
    bits = replicate k "0"%char ++ rest ∧
    (rest = [] ∨ ∃ rest', rest = "1"%char :: rest' ∧ Forall is_bit rest').
Proof.
  induction 1 as [|c bits [-> | ->] Hbits (k & rest & -> & Hrest)].
  - exists O, []. auto.
  - exists (S k), rest. auto.
  - exists O, ("1"%char :: replicate k "0"%char ++ rest). eauto.
Qed.

(** [bin(int(int_str, 2))[2:]] is [int_str] without some leading zeros. *)
Lemma bin_int_bits int_str :
  int_str ≠ [] → Forall is_bit int_str →
  ∃ n m bin_str,
    int_ int_str 2 = Ok n ∧
    bin n = Ok ("0"%char :: "b"%char :: bin_str) ∧
    int_str = replicate m "0"%char ++ bin_str.
Proof.
  intros Hne Hbits. unfold int_.
  rewrite (strip_base_prefix_bits _ Hbits).
  destruct (bits_split int_str Hbits)
    as (k & rest & -> & [-> | (rest' & -> & Hrest)]).
  - rewrite app_nil_r in *. destruct k as [|k]; [done|].
    exists 0%N, k, ["0"%char]. split_and!.
    + change (int_digits 2 0 (replicate (S k) "0"%char) = Ok 0%N).
      by rewrite <-(app_nil_r (replicate (S k) _)), int_digits_zeros.
    + done.
    + apply replicate_S_end.
  - destruct (int_digits_bits 1 rest' Hrest) as (n & Hn & Hle).
    exists n, k, ("1"%char :: rest'). split_and!; [|  |done].
    + assert (int_digits 2 0 (replicate k "0"%char ++ "1"%char :: rest')
              = Ok n) as Hint by (by rewrite int_digits_zeros).
      by destruct (replicate k "0"%char ++ "1"%char :: rest').
    + unfold bin.
      by rewrite (format_digits_bits _ rest' n Hrest Hn (fuel_log2 n)).
Qed.

Lemma add_zeros_Ok fuel m bin_str num_zeros_to_add :
  (m ≤ fuel)%nat →
  add_zeros fuel bin_str (replicate m "0"%char ++ bin_str) num_zeros_to_add =
  Ok (replicate m "0"%char ++ bin_str, (num_zeros_to_add + m)%nat).
Proof.
  revert fuel bin_str num_zeros_to_add.
  induction m as [|m IH]; intros fuel bin_str z Hfuel.
  - destruct fuel; simpl; rewrite bool_decide_false by (by intros []);
      by rewrite Nat.add_0_r.
  - destruct fuel as [|fuel]; [lia|]. simpl.
    rewrite bool_decide_true.
    + rewrite app_comm_cons, replicate_cons_app, <-app_assoc. simpl.
      rewrite IH by lia. do 2 f_equal. lia.
    + intros Heq%(f_equal length). simpl in Heq.
      rewrite length_app in Heq. lia.
Qed.

Lemma iter_zeros m (bin_str : str) :
  Nat.iter m (λ bin_str, "0"%char :: bin_str) bin_str =
  replicate m "0"%char ++ bin_str.
Proof. induction m as [|m IH]; simpl; [done|]. by rewrite IH. Qed.

Lemma pack_unpack int_str :
  int_str ≠ [] → Forall is_bit int_str →
  ∃ hex_str num_zeros_to_add,
    pack int_str = Ok (hex_str, int_str, num_zeros_to_add) ∧
    unpack hex_str num_zeros_to_add = Ok int_str.
Proof.
  intros Hne Hbits.
  destruct (bin_int_bits int_str Hne Hbits)
    as (n & m & bin_str & Hint & Hbin & ->).
  destruct (hex_Ok n) as (hex_str & Hhex & Hback).
  exists hex_str, m. unfold pack, unpack.
  rewrite Hint. cbn [bind]. rewrite Hhex. cbn [bind].
  rewrite Hback. cbn [bind]. rewrite Hbin. cbn [bind drop].
  rewrite iter_zeros. split; [|done].
  rewrite add_zeros_Ok; [done|].
  rewrite length_app, length_replicate. lia.
Qed.

(** ** join_codes *)

Lemma join_codes_from book s int_str :
  (∀ c, c ∈ s → [c] ∈ book.*1) →
  for_each
    (λ int_str char,
       let* code := dict_getitem book [char] in Ok (int_str ++ code))
    s int_str =
  Ok (int_str ++ mjoin (code_of book <$> s)).
Proof.
  revert int_str. induction s as [|c s IH]; intros int_str Hin; simpl.
  - by rewrite app_nil_r.
  - unfold dict_getitem, code_of at 1.
    destruct (dict_get book [c]) as [code|] eqn:Hget.
    + simpl. rewrite IH, <-app_assoc; [done|].
      intros c' Hc'. apply Hin. by apply list_elem_of_further.
    + apply dict_get_None in Hget. destruct Hget.
      apply Hin, list_elem_of_here.
Qed.

Lemma join_codes_Ok book s :
  (∀ c, c ∈ s → [c] ∈ book.*1) →
  join_codes book s = Ok (mjoin (code_of book <$> s)).
Proof. intros Hin. unfold join_codes. by rewrite join_codes_from. Qed.

Lemma code_of_elem book c :
  [c] ∈ book.*1 → ([c], code_of book c) ∈ book.
Proof.
  intros Hin. unfold code_of.
  destruct (dict_get book [c]) as [code|] eqn:Hget.
  - by apply dict_get_Some_elem.
  - by apply dict_get_None in Hget.
Qed.

(** ** The scan of decode *)

Section scan.
Variable encoding_to_char : dict str str.
Variable code : ascii → str.
Hypothesis keys_prefix_free : prefix_free encoding_to_char.*1.

Lemma proper_prefix_not_key w k :
  w ∈ encoding_to_char.*1 → (k < length w)%nat →
  take k w ∉ encoding_to_char.*1.
Proof.
  intros [i Hi]%list_elem_of_lookup Hk [j Hj]%list_elem_of_lookup.
  apply (keys_prefix_free j i (take k w) w Hj Hi).
  - intros ->. rewrite Hi in Hj. simplify_eq.
    apply (f_equal length) in Hj. rewrite length_take in Hj. lia.
  - apply prefix_take.
Qed.

Lemma slice_middle (pre w rest : str) k :
  (k ≤ length w)%nat →
  slice (pre ++ w ++ rest) (length pre) (length pre + k) = take k w.
Proof.
  intros Hk. unfold slice.
  replace (length pre + k - length pre)%nat with k by lia.
  by rewrite drop_app_length, take_app_le.
Qed.

(** The inner loop stops at the end of the code that starts at [i],
    whether it is found or the string ends there. *)
Lemma scan_code_Ok fuel (pre w rest : str) k :
  w ∈ encoding_to_char.*1 →
  (1 ≤ k ≤ length w)%nat → (length w ≤ fuel + k)%nat →
  scan_code fuel (pre ++ w ++ rest) encoding_to_char
    (length pre) (length pre + k) =
  Ok (length pre + length w)%nat.
Proof.
  intros Hw. revert k. induction fuel as [|fuel IH]; intros k Hk Hfuel.
  - assert (k = length w) as -> by lia. simpl.
    rewrite slice_middle, firstn_all by done.
    rewrite (proj2 (dict_contains_true _ _) Hw).
    by rewrite andb_false_r.
  - simpl. rewrite slice_middle by lia.
    destruct (decide (k = length w)) as [->|Hlt].
    + rewrite firstn_all, (proj2 (dict_contains_true _ _) Hw).
      by rewrite andb_false_r.
    + rewrite bool_decide_true
        by (rewrite !length_app; lia).
      rewrite (proj2 (dict_contains_false _ _))
        by (apply proper_prefix_not_key; [done|lia]).
      simpl. rewrite <-Nat.add_assoc. apply IH; lia.
Qed.

Lemma decode_loop_Ok fuel (pre : str) s original :
  Forall (decodable encoding_to_char code) s → (length s ≤ fuel)%nat →
  decode_loop fuel (pre ++ mjoin (code <$> s)) encoding_to_char
    original (length pre) =
  Ok (original ++ removelast s).
Proof.
  intros Hs. revert fuel pre original.
  induction Hs as [|c s [Hget Hne] Hs IH]; intros fuel pre original Hfuel.
  - rewrite !app_nil_r.
    destruct fuel; simpl; by rewrite bool_decide_false by lia.
  - destruct fuel as [|fuel]; [simpl in Hfuel; lia|].
    assert (code c ∈ encoding_to_char.*1) as Hkey.
    { apply dict_get_Some_elem in Hget.
      apply list_elem_of_fmap. by exists (code c, [c]). }
    assert (0 < length (code c))%nat as Hlen
      by (destruct (code c); [done|simpl; lia]).
    rewrite fmap_cons. cbn [mjoin list_join decode_loop].
    rewrite bool_decide_true by (rewrite !length_app; lia).
    rewrite scan_code_Ok; [|done|lia|rewrite !length_app; lia].
    cbn [bind]. destruct s as [|c' s].
    + rewrite bool_decide_true; [simpl; by rewrite app_nil_r|].
      rewrite !length_app. simpl. lia.
    + pose proof (Forall_inv Hs) as [_ Hne'].
      rewrite bool_decide_false.
      2:{ rewrite !length_app, fmap_cons. cbn [mjoin list_join].
          rewrite length_app. destruct (code c'); [done|simpl; lia]. }
      rewrite slice_middle, firstn_all by done.
      unfold dict_getitem. rewrite Hget. cbn [bind].
      rewrite <-length_app, app_assoc. rewrite IH; [|simpl in *; lia].
      by rewrite <-app_assoc.
Qed.
End scan.

(** ** Encoding and decoding with a good book *)

Lemma length_join_nonempty (ls : list str) :
  Forall (λ l, l ≠ []) ls → (length ls ≤ length (mjoin ls))%nat.
Proof.
  induction 1 as [|l ls Hl _ IH]; simpl; [done|].
  rewrite length_app. destruct l; [done|simpl; lia].
Qed.

Lemma good_book_code book s c :
  good_book book s → c ∈ s →
  code_of book c ≠ [] ∧ Forall is_bit (code_of book c) ∧
  dict_get (dict_invert book) (code_of book c) = Some [c].
Proof.
  intros (Hnd & Hkeys & Hfree & Hcodes) Hc.
  pose proof (code_of_elem book c (proj2 (Hkeys c) Hc)) as Hin.
  assert (code_of book c ∈ book.*2) as Hcode.
  { apply list_elem_of_fmap. by exists ([c], code_of book c). }
  rewrite Forall_forall in Hcodes.
  destruct (Hcodes _ Hcode) as [Hne Hbits]. split_and!; [done..|].
  pose proof (prefix_free_NoDup _ Hfree) as Hnd2.
  rewrite dict_invert_NoDup by done.
  apply dict_get_elem.
  - by rewrite <-list_fmap_compose.
  - apply list_elem_of_fmap. by exists ([c], code_of book c).
Qed.

Lemma good_book_int_str book s :
  good_book book s → s ≠ [] →
  mjoin (code_of book <$> s) ≠ [] ∧
  Forall is_bit (mjoin (code_of book <$> s)).
Proof.
  intros Hgood Hs. split.
  - destruct s as [|c s]; [done|].
    destruct (good_book_code book (c :: s) c Hgood) as (Hne & _);
      [apply list_elem_of_here|].
    rewrite fmap_cons. simpl. by destruct (code_of book c).
  - apply Forall_forall. intros b (code & Hb & Hcode)%list_elem_of_join.
    apply list_elem_of_fmap in Hcode as (c & -> & Hc).
    destruct (good_book_code book s c Hgood Hc) as (_ & Hbits & _).
    rewrite Forall_forall in Hbits. auto.
Qed.

Lemma two_distinct_nonempty s : two_distinct s → s ≠ [].
Proof. intros (a & _ & _ & Ha & _) ->. by apply elem_of_nil in Ha. Qed.

Lemma encode_str_Ok s :
  two_distinct s →
  ∃ hex_str book num_zeros_to_add,
    encode_str s = Ok (hex_str, book, num_zeros_to_add) ∧
    good_book book s ∧
    join_codes book s = Ok (mjoin (code_of book <$> s)) ∧
    pack (mjoin (code_of book <$> s)) =
      Ok (hex_str, mjoin (code_of book <$> s), num_zeros_to_add) ∧
    unpack hex_str num_zeros_to_add = Ok (mjoin (code_of book <$> s)).
Proof.
  intros Htwo. destruct (code_book_Ok s Htwo) as (book & Hbook & Hgood).
  pose proof (two_distinct_nonempty s Htwo) as Hs.
  destruct (good_book_int_str book s Hgood Hs) as [Hne Hbits].
  destruct (pack_unpack _ Hne Hbits) as (hex_str & n & Hpack & Hunpack).
  assert (join_codes book s = Ok (mjoin (code_of book <$> s))) as Hjoin.
  { apply join_codes_Ok. intros c Hc. by apply Hgood. }
  exists hex_str, book, n. split_and!; [|done..].
  unfold encode_str. rewrite Hbook. cbn [bind]. rewrite Hjoin. cbn [bind].
  rewrite Hpack. cbn [bind]. by rewrite bool_decide_true.
Qed.

Lemma encode_str_fails s :
  ¬ two_distinct s → encode_str s = Raise IndexError.
Proof. intros Hone. unfold encode_str. by rewrite code_book_fails. Qed.

Lemma decode_str_good_book book s hex_str num_zeros_to_add :
  good_book book s →
  unpack hex_str num_zeros_to_add = Ok (mjoin (code_of book <$> s)) →
  decode_str hex_str book num_zeros_to_add = Ok (removelast s).
Proof.
  intros Hgood Hunpack. unfold decode_str. rewrite Hunpack. cbn [bind].
  pose proof Hgood as (Hnd & Hkeys & Hfree & Hcodes).
  assert (Forall (decodable (dict_invert book) (code_of book)) s) as Hs.
  { apply Forall_forall. intros c Hc.
    destruct (good_book_code book s c Hgood Hc) as (? & _ & ?). by split. }
  apply (decode_loop_Ok (dict_invert book) (code_of book)) with (pre := []);
    [|done|].
  - rewrite dict_invert_NoDup by (by apply prefix_free_NoDup).
    by rewrite <-list_fmap_compose.
  - etrans; [|apply length_join_nonempty].
    + by rewrite length_fmap.
    + apply Forall_fmap. eapply Forall_impl; [exact Hs|]. by intros c [_ ?].
Qed.

Lemma removelast_newline (s : str) :
  last s = Some "010"%char → removelast s ++ ["010"%char] = s.
Proof.
  intros Hlast. destruct s as [|c s _] using rev_ind; [done|].
  rewrite last_snoc in Hlast. simplify_eq.
  by rewrite removelast_last.
Qed.

Lemma dict_eq_refl {K V} `{EqDecision K, EqDecision V} (d : dict K V) :
  NoDup d.*1 → dict_eq d d = true.
Proof.
  intros Hnd. unfold dict_eq. rewrite bool_decide_true by done. simpl.
  apply forallb_forall. intros [k v] Hin%list_elem_of_In.
  apply bool_decide_eq_true. by apply dict_get_elem.
Qed.

(** ** Files *)

Lemma encode_unfold file (fs : files) :
  encode file fs =
  let* s :=
    match read_text fs file with
    | Raise FileNotFoundError => Raise (SystemExit 1)
    | r => r
    end in
  let* packed := encode_str s in
  let* _ := assert (dict_eq packed.1.2 packed.1.2) in
  Ok (<["compressed.txt"%string := Pickle packed.1.1 packed.1.2 packed.2]>
        (delete "compressed.txt"%string fs)).
Proof.
  unfold encode.
  destruct (match read_text fs file with
            | Raise FileNotFoundError => Raise (SystemExit 1)
            | r => r
            end) as [s| |]; cbn [bind]; [|done..].
  destruct (encode_str s) as [[[hex_str book] n]| |]; cbn [bind]; [|done..].
  unfold read_pickle. by rewrite lookup_insert_eq.
Qed.

Lemma universal_newlines_id s :
  carriage_return ∉ s → universal_newlines s = s.
Proof.
  induction s as [|c s IH]; [done|]. intros Hnot.
  cbn [universal_newlines].
  rewrite bool_decide_false by (intros ->; apply Hnot; left).
  f_equal. apply IH. intros Hin. apply Hnot. by right.
Qed.

Lemma read_text_Text (fs : files) file s :
  fs !! file = Some (Text s) → read_text fs file = Ok (universal_newlines s).
Proof. intros Hfile. unfold read_text. by rewrite Hfile. Qed.

Lemma encode_Ok file (fs : files) s :
  read_text fs file = Ok s → two_distinct s →
  ∃ hex_str book num_zeros_to_add,
    encode_str s = Ok (hex_str, book, num_zeros_to_add) ∧
    encode file fs =
    Ok (<["compressed.txt"%string := Pickle hex_str book num_zeros_to_add]>
          (delete "compressed.txt"%string fs)).
Proof.
  intros Hfile Htwo.
  destruct (encode_str_Ok s Htwo)
    as (hex_str & book & n & Hencode & Hgood & _).
  exists hex_str, book, n. split; [done|].
  rewrite encode_unfold. rewrite Hfile. cbn [bind].
  rewrite Hencode. cbn [bind fst snd].
  rewrite dict_eq_refl by apply Hgood. done.
Qed.

Lemma encode_fails file (fs : files) s :
  read_text fs file = Ok s → ¬ two_distinct s →
  encode file fs = Raise IndexError.
Proof.
  intros Hfile Hone. rewrite encode_unfold.
  rewrite Hfile. cbn [bind]. by rewrite encode_str_fails.
Qed.

(** ** The scan of decode on an arbitrary payload *)

Lemma scan_code_total fuel bin_str (encoding_to_char : dict str str) i j :
  (j ≤ length bin_str)%nat → (length bin_str ≤ fuel + j)%nat →
  ∃ j',
    scan_code fuel bin_str encoding_to_char i j = Ok j' ∧
    (j ≤ j' ≤ length bin_str)%nat ∧
    ((j' < length bin_str)%nat →
     dict_contains encoding_to_char (slice bin_str i j') = true).
Proof.
  revert j. induction fuel as [|fuel IH]; intros j Hj Hfuel; simpl.
  - rewrite bool_decide_false by lia. simpl.
    exists j. split_and!; try done; lia.
  - destruct (bool_decide (j < length bin_str)%nat) eqn:Hlt;
      [apply bool_decide_eq_true in Hlt|apply bool_decide_eq_false in Hlt];
      simpl.
    + destruct (dict_contains encoding_to_char (slice bin_str i j)) eqn:Hin;
        simpl.
      * exists j. split_and!; try done; lia.
      * destruct (IH (j + 1)%nat) as (j' & -> & Hj' & Hfound); [lia..|].
        exists j'. split_and!; try done; lia.
    + exists j. split_and!; try done; lia.
Qed.

Lemma decode_loop_total fuel bin_str (encoding_to_char : dict str str)
    original i :
  (i ≤ length bin_str)%nat → (length bin_str ≤ fuel + i)%nat →
  ∃ codes chars,
    decode_loop fuel bin_str encoding_to_char original i =
      Ok (original ++ mjoin chars) ∧
    mjoin codes `prefix_of` drop i bin_str ∧
    Forall2 (λ code char, dict_get encoding_to_char code = Some char)
      codes chars.
Proof.
  revert original i.
  induction fuel as [|fuel IH]; intros original i Hi Hfuel; simpl.
  - rewrite bool_decide_false by lia.
    exists [], []. rewrite app_nil_r.
    split_and!; [done|apply prefix_nil|constructor].
  - destruct (bool_decide (i < length bin_str)%nat) eqn:Hlt;
      [apply bool_decide_eq_true in Hlt|].
    2:{ exists [], []. rewrite app_nil_r.
        split_and!; [done|apply prefix_nil|constructor]. }
    destruct (scan_code_total (length bin_str) bin_str encoding_to_char
                i (i + 1)) as (j & -> & Hj & Hfound); [lia..|].
    cbn [bind].
    destruct (bool_decide (length bin_str ≤ j)%nat) eqn:Hend;
      [|apply bool_decide_eq_false in Hend].
    { exists [], []. rewrite app_nil_r.
      split_and!; [done|apply prefix_nil|constructor]. }
    unfold dict_getitem, dict_contains in *.
    destruct (dict_get encoding_to_char (slice bin_str i j))
      as [char|] eqn:Hget; [|by discriminate Hfound; lia].
    cbn [bind].
    destruct (IH (original ++ char) j) as (codes & chars & -> & Hpre & Hall);
      [lia..|].
    exists (slice bin_str i j :: codes), (char :: chars).
    split_and!; [by rewrite <-app_assoc| |by constructor].
    simpl. rewrite <-(take_drop (j - i) (drop i bin_str)).
    apply prefix_app. rewrite drop_drop.
    by replace (i + (j - i))%nat with j by lia.
Qed.

Lemma unpack_nonempty hex_str num_zeros_to_add bin_str :
  unpack hex_str num_zeros_to_add = Ok bin_str → bin_str ≠ [].
Proof.
  unfold unpack. intros Hrun. bind_ok Hrun. rename a into n.
  bind_ok Hrun. rename H0 into Hbin. simplify_eq.
  unfold bin in Hbin. bind_ok Hbin. rename H0 into Hdigits. simplify_eq.
  destruct (format_digits_Ok (S (N.to_nat (N.log2 n))) 2 n)
    as (digits & Hdigits' & Hne & _); [lia|done|apply fuel_log2|].
  rewrite Hdigits in Hdigits'. simplify_eq. cbn [drop].
  rewrite iter_zeros. intros Hnil%app_eq_nil. by destruct Hnil.
Qed.

Lemma scan_code_first fuel bin_str (encoding_to_char : dict str str) i j :
  (j ≤ length bin_str)%nat → (length bin_str ≤ fuel + j)%nat →
  ∃ j',
    scan_code fuel bin_str encoding_to_char i j = Ok j' ∧
    (j ≤ j' ≤ length bin_str)%nat ∧
    ((j' < length bin_str)%nat →
     dict_contains encoding_to_char (slice bin_str i j') = true) ∧
    ∀ k, (j ≤ k < j')%nat →
         dict_contains encoding_to_char (slice bin_str i k) = false.
Proof.
  revert j. induction fuel as [|fuel IH]; intros j Hj Hfuel; simpl.
  - rewrite bool_decide_false by lia. simpl.
    exists j. split_and!; try done; lia.
  - destruct (bool_decide (j < length bin_str)%nat) eqn:Hlt;
      [apply bool_decide_eq_true in Hlt|apply bool_decide_eq_false in Hlt];
      simpl.
    + destruct (dict_contains encoding_to_char (slice bin_str i j)) eqn:Hin;
        simpl.
      * exists j. split_and!; try done; lia.
      * destruct (IH (j + 1)%nat) as (j' & -> & Hj' & Hfound & Hnone);
          [lia..|].
        exists j'. split_and!; try done; try lia.
        intros k Hk. destruct (decide (k = j)) as [->|Hne]; [done|].
        apply Hnone. lia.
    + exists j. split_and!; try done; lia.
Qed.

Lemma no_key_before_slice (encoding_to_char : dict str str) bin_str i j :
  (j ≤ length bin_str)%nat →
  (∀ k, (i + 1 ≤ k < j)%nat →
        dict_contains encoding_to_char (slice bin_str i k) = false) →
  no_key_before encoding_to_char (slice bin_str i j).
Proof.
  intros Hj Hnone p [q Hq] Hne Hneq.
  assert (length p + length q = j - i)%nat as Hlen.
  { rewrite <-length_app, <-Hq. unfold slice.
    rewrite length_take, length_drop. lia. }
  assert (0 < length p)%nat by (destruct p; [done|simpl; lia]).
  assert (0 < length q)%nat.
  { destruct q; [|simpl; lia]. by rewrite app_nil_r in Hq. }
  assert (slice bin_str i (i + length p) = p) as Hp.
  { unfold slice in *.
    replace (i + length p - i)%nat with (length p `min` (j - i))%nat by lia.
    by rewrite <-take_take, Hq, take_app_length. }
  specialize (Hnone (i + length p)%nat ltac:(lia)).
  rewrite Hp in Hnone. unfold dict_contains in Hnone.
  by destruct (dict_get encoding_to_char p).
Qed.

Lemma decode_loop_scan fuel bin_str (encoding_to_char : dict str str)
    original i :
  (i < length bin_str)%nat → (length bin_str ≤ fuel + i)%nat →
  ∃ codes chars rest,
    decode_loop fuel bin_str encoding_to_char original i =
      Ok (original ++ mjoin chars) ∧
    drop i bin_str = mjoin codes ++ rest ∧
    Forall2 (λ code char, dict_get encoding_to_char code = Some char)
      codes chars ∧
    Forall (λ code, code ≠ [] ∧ no_key_before encoding_to_char code) codes ∧
    rest ≠ [] ∧ no_key_before encoding_to_char rest.
Proof.
  revert original i.
  induction fuel as [|fuel IH]; intros original i Hi Hfuel; [lia|].
  assert (drop i bin_str ≠ []) as Hrest.
  { intros Hnil%(f_equal length). rewrite length_drop in Hnil.
    simpl in Hnil. lia. }
  simpl. rewrite bool_decide_true by done.
  destruct (scan_code_first (length bin_str) bin_str encoding_to_char
              i (i + 1)) as (j & -> & Hj & Hfound & Hnone); [lia..|].
  cbn [bind].
  destruct (bool_decide (length bin_str ≤ j)%nat) eqn:Hend;
    [apply bool_decide_eq_true in Hend|apply bool_decide_eq_false in Hend].
  { exists [], [], (drop i bin_str). rewrite app_nil_r.
    split_and!; [done|done|constructor|constructor|done|].
    assert (j = length bin_str) as -> by lia.
    replace (drop i bin_str) with (slice bin_str i (length bin_str)).
    - by apply no_key_before_slice.
    - unfold slice. apply take_ge. rewrite length_drop. lia. }
  unfold dict_getitem.
  destruct (dict_get encoding_to_char (slice bin_str i j))
    as [char|] eqn:Hget.
  2:{ specialize (Hfound ltac:(lia)). unfold dict_contains in Hfound.
      by rewrite Hget in Hfound. }
  cbn [bind].
  destruct (IH (original ++ char) j)
    as (codes & chars & rest & -> & Hdrop & Hall & Hfirst & Hne & Hlast);
    [lia..|].
  exists (slice bin_str i j :: codes), (char :: chars), rest.
  split_and!; [by rewrite <-app_assoc| |by constructor| |done..].
  - simpl. rewrite <-app_assoc, <-Hdrop.
    rewrite <-(take_drop (j - i) (drop i bin_str)) at 1.
    unfold slice. f_equal. rewrite drop_drop.
    by replace (i + (j - i))%nat with j by lia.
  - constructor; [|done]. split.
    + intros Hnil%(f_equal length). unfold slice in Hnil.
      rewrite length_take, length_drop in Hnil. simpl in Hnil. lia.
    + apply no_key_before_slice; [lia|done].
Qed.

Lemma merged_children_sum node : merged node → children_sum node.
Proof. induction 1; simpl; auto. Qed.

Lemma two_distinct_check s :
  (2 <=? length (make_dict s))%nat = true → two_distinct s.
Proof. intros Hlen%Nat.leb_le. by apply make_dict_two_distinct. Qed.

Lemma two_distinct_replicate n c : ¬ two_distinct (replicate n c).
Proof.
  intros (a & b & Hne & [-> _]%elem_of_replicate & [-> _]%elem_of_replicate).
  done.
Qed.

Lemma decode_Ok file (fs : files) hex_str book num_zeros_to_add original :
  fs !! file = Some (Pickle hex_str book num_zeros_to_add) →
  decode_str hex_str book num_zeros_to_add = Ok original →
  decode file fs =
  Ok (<["decoded.txt"%string := Text (original ++ [newline])]>
        (delete "decoded.txt"%string fs)).
Proof.
  intros Hfile Hdecode. unfold decode, read_pickle.
  rewrite Hfile. cbn [bind]. by rewrite Hdecode.
Qed.

(** * The unit tests of the program *)

Example make_dict_test :
  make_dict (py "abracadabra") =
  [("a", 5); ("b", 2); ("r", 2); ("c", 1); ("d", 1)]%char.
Proof. reflexivity. Qed.

Example tree_dfs_test :
  entry <$> tree_dfs (Some test_tree) [] [] =
  [(py "d", py "11"); (py "c", py "00")].
Proof. reflexivity. Qed.

Example encode_decode_test :
  encode_decode (py "abracadabra" ++ [newline]) =
  Ok (py "abracadabra" ++ [newline]).
Proof. vm_compute. reflexivity. Qed.

(** * The claims *)

(** C1, as the program has it: for every input file that holds ASCII
    text without a carriage return, has at least two distinct symbols and
    ends with a newline, encoding the file and decoding [compressed.txt]
    writes the input back: [decoded.txt] holds what the input file holds,
    and reading it gives the input. *)
Theorem roundtrip_newline_terminated file (fs : files) s :
  fs !! file = Some (Text s) → isascii s = true → carriage_return ∉ s →
  two_distinct s → last s = Some newline →
  ∃ fs1 fs2,
    encode file fs = Ok fs1 ∧
    decode "compressed.txt" fs1 = Ok fs2 ∧
    fs2 !! "decoded.txt"%string = Some (Text s) ∧
    read_text fs2 "decoded.txt" = Ok s.
Proof.
  intros Hfile _ Hcr Htwo Hlast.
  assert (read_text fs file = Ok s) as Hread.
  { rewrite (read_text_Text fs file s Hfile).
    by rewrite universal_newlines_id. }
  destruct (encode_str_Ok s Htwo)
    as (hex_str & book & n & Hencode & Hgood & _ & _ & Hunpack).
  destruct (encode_Ok file fs s Hread Htwo)
    as (hex_str' & book' & n' & Hencode' & Hrun).
  rewrite Hencode in Hencode'. simplify_eq.
  eexists _, _. split_and!; [done| | |].
  - eapply (decode_Ok _ _ _ _ _ (removelast s)).
    + apply lookup_insert_eq.
    + by apply (decode_str_good_book book' s).
  - rewrite lookup_insert_eq. by rewrite removelast_newline.
  - unfold read_text. rewrite lookup_insert_eq.
    by rewrite removelast_newline, universal_newlines_id.
Qed.

Lemma roundtrip_newline_terminated_witness :
  ∃ fs1 fs2,
    encode "encode-test.txt"
      {["encode-test.txt"%string := Text (py "abracadabra" ++ [newline])]}
      = Ok fs1 ∧
    decode "compressed.txt" fs1 = Ok fs2 ∧
    fs2 !! "decoded.txt"%string =
      Some (Text (py "abracadabra" ++ [newline])) ∧
    read_text fs2 "decoded.txt" = Ok (py "abracadabra" ++ [newline]).
Proof.
  apply roundtrip_newline_terminated.
  - reflexivity.
  - reflexivity.
  - by apply (bool_decide_unpack _).
  - apply two_distinct_check. reflexivity.
  - reflexivity.
Defined.

(** C1 as stated fails: ["ab"] comes back as ["a"] and a newline, ["aaaa"]
    is not encoded at all, and an [a] followed by a carriage return and a
    newline comes back without the carriage return. *)
Lemma roundtrip_counterexample :
  encode_decode (py "ab") = Ok ["a"%char; newline] ∧
  encode_decode (py "aaaa") = Raise IndexError ∧
  encode_decode ["a"%char; carriage_return; newline] =
    Ok ["a"%char; newline].
Proof. split_and!; vm_compute; reflexivity. Qed.

(** C2, as the program has it: an input made of one symbol repeated one
    or more times is not encoded; the second [heappop] of the merge loop
    raises [IndexError] on the emptied heap, so no code book and no payload
    are produced. *)
Theorem single_symbol_raises (c : ascii) (n : nat) :
  ∃ node,
    make_heap (make_dict (replicate (S n) c)) = Ok [node] ∧
    heappop [node] = Ok (node, []) ∧
    heappop [] = Raise IndexError ∧
    encode_str (replicate (S n) c) = Raise IndexError.
Proof.
  pose proof (two_distinct_replicate (S n) c) as Hone.
  destruct (make_heap_Ok (make_dict (replicate (S n) c)))
    as (heap & Hheap & Hperm).
  apply Permutation_length in Hperm. rewrite length_fmap in Hperm.
  rewrite make_dict_two_distinct in Hone.
  assert (c ∈ (make_dict (replicate (S n) c)).*1) as Hc
    by apply make_dict_keys, list_elem_of_here.
  destruct (make_dict (replicate (S n) c)) as [|kv [|kv' freqs]];
    [by apply elem_of_nil in Hc| |simpl in Hone; lia].
  destruct heap as [|node [|node' heap]]; try done.
  exists node. split_and!; [done..|].
  apply encode_str_fails, two_distinct_replicate.
Qed.

(** C2 as stated fails: ["aaaa"] gets no book and no payload. *)
Lemma single_symbol_counterexample :
  huffman_tree (py "aaaa") = Raise IndexError ∧
  encode_str (py "aaaa") = Raise IndexError.
Proof. split; vm_compute; reflexivity. Qed.

(** C3, as the program has it: the scan of decode never fails. Whatever
    the book, for every hex string that is a numeral it returns the
    symbols of the codes it matched: the bits are these codes followed by
    at least one bit that is dropped; every code is a key of the inverted
    book, it is not empty and no shorter non-empty prefix of it is a key;
    of the bits that are dropped, no non-empty proper prefix is a key. *)
Theorem decode_returns_partial_output hex_str book num_zeros_to_add bin_str :
  unpack hex_str num_zeros_to_add = Ok bin_str →
  ∃ codes chars rest,
    decode_str hex_str book num_zeros_to_add = Ok (mjoin chars) ∧
    bin_str = mjoin codes ++ rest ∧
    Forall2 (λ code char, dict_get (dict_invert book) code = Some char)
      codes chars ∧
    Forall (λ code, code ≠ [] ∧ no_key_before (dict_invert book) code)
      codes ∧
    rest ≠ [] ∧ no_key_before (dict_invert book) rest.
Proof.
  intros Hunpack. unfold decode_str. rewrite Hunpack. cbn [bind].
  pose proof (unpack_nonempty _ _ _ Hunpack) as Hne.
  destruct (decode_loop_scan (length bin_str) bin_str (dict_invert book)
              [] 0) as (codes & chars & rest & Hrun & Hbits & Hall);
    [destruct bin_str; [done|simpl; lia]|lia|].
  exists codes, chars, rest. by rewrite Hrun.
Qed.

Lemma decode_returns_partial_output_witness :
  ∃ codes chars rest,
    decode_str (py "0x3") [(py "a", py "0"); (py "b", py "10")] 1 =
      Ok (mjoin chars) ∧
    py "011" = mjoin codes ++ rest ∧
    Forall2
      (λ code char,
         dict_get (dict_invert [(py "a", py "0"); (py "b", py "10")]) code =
         Some char)
      codes chars ∧
    Forall
      (λ code,
         code ≠ [] ∧
         no_key_before (dict_invert [(py "a", py "0"); (py "b", py "10")])
           code)
      codes ∧
    rest ≠ [] ∧
    no_key_before (dict_invert [(py "a", py "0"); (py "b", py "10")]) rest.
Proof.
  apply decode_returns_partial_output. reflexivity.
Defined.

(** C3 as stated fails: with the book [{a: 0, b: 10}] the bits [011] end
    with [11], which matches no code, and decode returns ["a"]. *)
Lemma decode_counterexample :
  unpack (py "0x3") 1 = Ok (py "011") ∧
  decode_str (py "0x3") [(py "a", py "0"); (py "b", py "10")] 1 =
  Ok (py "a").
Proof. split; vm_compute; reflexivity. Qed.

(** C4: for an input with at least two distinct symbols, encode succeeds
    and the scan of decode returns the input without its last symbol. *)
Theorem decode_drops_last_symbol s :
  two_distinct s →
  ∃ hex_str book num_zeros_to_add,
    encode_str s = Ok (hex_str, book, num_zeros_to_add) ∧
    decode_str hex_str book num_zeros_to_add = Ok (removelast s).
Proof.
  intros Htwo.
  destruct (encode_str_Ok s Htwo)
    as (hex_str & book & n & Hencode & Hgood & _ & _ & Hunpack).
  exists hex_str, book, n. split; [done|].
  by apply (decode_str_good_book book s).
Qed.

Lemma decode_drops_last_symbol_witness :
  ∃ hex_str book num_zeros_to_add,
    encode_str (py "abracadabra") = Ok (hex_str, book, num_zeros_to_add) ∧
    decode_str hex_str book num_zeros_to_add = Ok (py "abracadabr").
Proof.
  apply (decode_drops_last_symbol (py "abracadabra")).
  apply two_distinct_check. reflexivity.
Defined.

(** C5, as the program has it: a zero-length input is not encoded; the
    first [heappop] raises [IndexError] on the empty heap, and nothing is
    written. *)
Theorem empty_input_raises file (fs : files) :
  fs !! file = Some (Text []) →
  make_heap (make_dict []) = Ok [] ∧
  heappop [] = Raise IndexError ∧
  encode file fs = Raise IndexError.
Proof.
  intros Hfile. split_and!; [done..|].
  apply (encode_fails file fs []); [by apply (read_text_Text fs file [])|].
  apply (two_distinct_replicate 0 "a"%char).
Qed.

Lemma empty_input_raises_witness :
  make_heap (make_dict []) = Ok [] ∧
  heappop [] = Raise IndexError ∧
  encode "empty.txt" {["empty.txt"%string := Text []]} = Raise IndexError.
Proof. apply empty_input_raises. reflexivity. Defined.

(** C5 as stated fails: the empty input has no tree and no payload. *)
Lemma empty_input_counterexample :
  make_dict [] = [] ∧ make_heap [] = Ok [] ∧
  huffman_tree [] = Raise IndexError ∧ encode_str [] = Raise IndexError.
Proof. split_and!; reflexivity. Qed.

(** C6: for an input with at least two distinct symbols, in every state
    of the heap that the merge loop can be in, the merged frequency equals
    the length of the input exactly when the two pops have emptied the
    heap; so the loop that stops on that equality and the loop that stops
    when one node remains in the queue build the same tree. *)
Theorem exit_on_length_builds_same_tree s :
  two_distinct s →
  (∀ heap node1 heap1 node2 heap2,
     Forall merged heap → sum_freq heap = Z.of_nat (length s) →
     heappop heap = Ok (node1, heap1) → heappop heap1 = Ok (node2, heap2) →
     freq (merge node1 node2) = Z.of_nat (length s) ↔ heap2 = []) ∧
  ∃ root,
    huffman_tree s = Ok root ∧ huffman_tree_until_one s = Ok root.
Proof.
  intros Htwo. split.
  - intros heap node1 heap1 node2 heap2. apply exit_iff_emptied.
  - destruct (huffman_tree_Ok s Htwo)
      as (node1 & node2 & Hcode & Hspec & _).
    by exists (merge node1 node2).
Qed.

Lemma exit_on_length_builds_same_tree_witness :
  (∀ heap node1 heap1 node2 heap2,
     Forall merged heap → sum_freq heap = 11 →
     heappop heap = Ok (node1, heap1) → heappop heap1 = Ok (node2, heap2) →
     freq (merge node1 node2) = 11 ↔ heap2 = []) ∧
  ∃ root,
    huffman_tree (py "abracadabra") = Ok root ∧
    huffman_tree_until_one (py "abracadabra") = Ok root.
Proof.
  apply (exit_on_length_builds_same_tree (py "abracadabra")).
  apply two_distinct_check. reflexivity.
Defined.

(** C7: the code book of an input with at least two distinct symbols
    exists, and the codes of two distinct symbols are different and
    neither is a prefix of the other. *)
Theorem code_book_prefix_free s :
  two_distinct s →
  ∃ book,
    code_book s = Ok book ∧
    ∀ c1 code1 c2 code2,
      (c1, code1) ∈ book → (c2, code2) ∈ book → c1 ≠ c2 →
      ¬ code1 `prefix_of` code2 ∧ ¬ code2 `prefix_of` code1 ∧
      code1 ≠ code2.
Proof.
  intros Htwo.
  destruct (code_book_Ok s Htwo) as (book & Hbook & _ & _ & Hfree & _).
  exists book. split; [done|].
  intros c1 code1 c2 code2 [i Hi]%list_elem_of_lookup
    [j Hj]%list_elem_of_lookup Hne.
  assert (i ≠ j) as Hij by (intros ->; congruence).
  assert (book.*2 !! i = Some code1) as Hi2
    by (by rewrite list_lookup_fmap, Hi).
  assert (book.*2 !! j = Some code2) as Hj2
    by (by rewrite list_lookup_fmap, Hj).
  pose proof (Hfree i j code1 code2 Hi2 Hj2 Hij) as H12.
  assert (j ≠ i) as Hji by done.
  pose proof (Hfree j i code2 code1 Hj2 Hi2 Hji) as H21.
  split_and!; [done..|]. intros ->. by apply H12.
Qed.

Lemma code_book_prefix_free_witness :
  ∃ book,
    code_book (py "abracadabra") = Ok book ∧
    ∀ c1 code1 c2 code2,
      (c1, code1) ∈ book → (c2, code2) ∈ book → c1 ≠ c2 →
      ¬ code1 `prefix_of` code2 ∧ ¬ code2 `prefix_of` code1 ∧
      code1 ≠ code2.
Proof.
  apply code_book_prefix_free.
  apply two_distinct_check. reflexivity.
Defined.

Lemma huffman_tree_freq s root :
  huffman_tree s = Ok root → freq root = Z.of_nat (length s).
Proof.
  unfold huffman_tree. intros Hrun. bind_ok Hrun.
  by apply build_tree_freq in Hrun.
Qed.

(** C8: the counts of the frequency table add up to the length of the
    input; the merge loop returns a root exactly when the input has two
    distinct symbols, the frequency of the root is that sum, and the
    frequency of every node with children is the sum of theirs. *)
Theorem frequency_invariant s :
  sum_values (make_dict s) = Z.of_nat (length s) ∧
  match huffman_tree s with
  | Ok root =>
      two_distinct s ∧ freq root = sum_values (make_dict s) ∧
      children_sum root
  | Raise e => e = IndexError ∧ ¬ two_distinct s
  | OutOfFuel => False
  end.
Proof.
  split; [apply make_dict_sum|].
  destruct (decide (2 ≤ length (make_dict s))%nat) as [Htwo|Hone];
    rewrite <-make_dict_two_distinct in *.
  - destruct (huffman_tree_Ok s Htwo) as (node1 & node2 & Hrun & _ & Hm & _).
    rewrite Hrun. split_and!; [done| |by apply merged_children_sum].
    rewrite make_dict_sum. by apply huffman_tree_freq.
  - by rewrite huffman_tree_fails.
Qed.

(** X15: a second run of encode on the same file, from the files left by
    the first run, has the outcome of the first run: the same files, or
    the same exception. *)
Lemma encode_twice file (fs : files) :
  file ≠ "compressed.txt"%string →
  (let* fs' := encode file fs in encode file fs') = encode file fs.
Proof.
  intros Hfile. destruct (encode file fs) as [fs'| |] eqn:Hrun;
    cbn [bind]; [|done..].
  rewrite encode_unfold in Hrun.
  destruct (match read_text fs file with
            | Raise FileNotFoundError => Raise (SystemExit 1)
            | r => r
            end) as [s| |] eqn:Hread; cbn [bind] in Hrun; [|done..].
  destruct (encode_str s) as [packed| |] eqn:Hencode; cbn [bind] in Hrun;
    [|done..].
  destruct (dict_eq packed.1.2 packed.1.2) eqn:Heq; cbn [bind assert] in Hrun;
    [|done].
  injection Hrun as <-. rewrite encode_unfold.
  assert (read_text
            (<["compressed.txt"%string :=
                 Pickle packed.1.1 packed.1.2 packed.2]>
               (delete "compressed.txt"%string fs)) file =
          read_text fs file) as ->.
  { unfold read_text. by rewrite lookup_insert_ne, lookup_delete_ne. }
  rewrite Hread. cbn [bind]. rewrite Hencode. cbn [bind].
  rewrite Heq. cbn [bind assert].
  by rewrite delete_insert_eq, delete_delete_eq.
Qed.

(** C9: encode is deterministic. Two runs on the same contents of the
    input file, whatever else the file systems hold, leave the same hex
    string, mapping and number of zeros in [compressed.txt], or fail with
    the same exception. *)
Theorem encode_deterministic file (fs1 fs2 : files) :
  fs1 !! file = fs2 !! file →
  pickled (encode file fs1) = pickled (encode file fs2).
Proof.
  intros Hsame. rewrite !encode_unfold. unfold pickled.
  assert (read_text fs1 file = read_text fs2 file) as ->
    by (unfold read_text; by rewrite Hsame).
  destruct (match read_text fs2 file with
            | Raise FileNotFoundError => Raise (SystemExit 1)
            | r => r
            end) as [s| |]; cbn [bind]; [|done..].
  destruct (encode_str s) as [packed| |]; cbn [bind]; [|done..].
  destruct (dict_eq packed.1.2 packed.1.2); cbn [bind assert]; [|done].
  by rewrite !lookup_insert_eq.
Qed.

Lemma encode_deterministic_witness :
  pickled
    (encode "encode-test.txt"
       {["encode-test.txt"%string := Text (py "abracadabra")]}) =
  pickled
    (encode "encode-test.txt"
       (<["compressed.txt"%string := Text (py "stale")]>
          {["encode-test.txt"%string := Text (py "abracadabra")]})).
Proof. apply encode_deterministic. reflexivity. Defined.

(** C10: for the concatenated codes [int_str] that encode computes, the
    conversion to hex succeeds with [bin_str] restored to [int_str], and
    what decode rebuilds from the hex string and the number of zeros is
    [int_str] again. *)
Theorem bit_length_roundtrip s int_str :
  int_str_of s = Ok int_str →
  ∃ hex_str num_zeros_to_add,
    pack int_str = Ok (hex_str, int_str, num_zeros_to_add) ∧
    unpack hex_str num_zeros_to_add = Ok int_str.
Proof.
  unfold int_str_of. intros Hrun.
  destruct (decide (2 ≤ length (make_dict s))%nat) as [Htwo|Hone];
    rewrite <-make_dict_two_distinct in *.
  - destruct (code_book_Ok s Htwo) as (book & Hbook & Hgood).
    rewrite Hbook in Hrun. cbn [bind] in Hrun.
    rewrite join_codes_Ok in Hrun by (intros c Hc; by apply Hgood).
    injection Hrun as <-.
    destruct (good_book_int_str book s Hgood (two_distinct_nonempty s Htwo))
      as [Hne Hbits].
    by apply pack_unpack.
  - by rewrite code_book_fails in Hrun.
Qed.

Lemma bit_length_roundtrip_witness :
  ∃ hex_str num_zeros_to_add,
    pack (py "01111100100010101111100") =
      Ok (hex_str, py "01111100100010101111100", num_zeros_to_add) ∧
    unpack hex_str num_zeros_to_add = Ok (py "01111100100010101111100").
Proof.
  apply (bit_length_roundtrip (py "abracadabra")). reflexivity.
Defined.


(** * Further properties *)

(** ** The order of the heap *)

Lemma div2_parent_spec x :
  (x - 1 = 2 * Nat.div2 (x - 1) ∨ x - 1 = 2 * Nat.div2 (x - 1) + 1)%nat.
Proof.
  pose proof (Nat.div2_odd (x - 1)) as Hodd.
  destruct (Nat.odd (x - 1)); simpl in Hodd; lia.
Qed.

(** Arithmetic on the positions of parents and children. *)
Ltac heap_lia :=
  repeat match goal with
  | |- context [Nat.div2 (?x - 1)] =>
      pose proof (div2_parent_spec x);
      let q := fresh "q" in
      set (q := Nat.div2 (x - 1)) in *; clearbody q
  | H : context [Nat.div2 (?x - 1)] |- _ =>
      pose proof (div2_parent_spec x);
      let q := fresh "q" in
      set (q := Nat.div2 (x - 1)) in *; clearbody q
  end;
  lia.

(** Case analysis on the positions compared by [decide]. *)
Ltac heap_cases :=
  repeat case_decide; subst;
  repeat match goal with
  | H : Nat.div2 (_ - 1) = _ |- _ => rewrite H in *; revert H
  end;
  intros; try heap_lia.

Lemma key_insert heap j x i :
  key (<[j:=x]> heap) i =
  if decide (i = j) then if decide (j < length heap)%nat then freq x
                         else key heap i
  else key heap i.
Proof.
  unfold key. destruct (decide (i = j)) as [->|Hne].
  - destruct (decide (j < length heap)%nat).
    + by rewrite list_lookup_insert_eq.
    + by rewrite list_insert_ge by lia.
  - by rewrite list_lookup_insert_ne.
Qed.

Lemma list_get_key heap i x : list_get heap i = Ok x → key heap i = freq x.
Proof. intros Hget%list_get_Ok. unfold key. by rewrite Hget. Qed.

Lemma list_set_Ok {A} (l l' : list A) i x :
  list_set l i x = Ok l' → (i < length l)%nat ∧ l' = <[i:=x]> l.
Proof. unfold list_set. case_decide; intros [=]; auto. Qed.

Lemma TreeNode_lt_spec a b :
  if TreeNode_lt a b then freq a < freq b else freq b ≤ freq a.
Proof. unfold TreeNode_lt. destruct (Z.ltb_spec (freq a) (freq b)); lia. Qed.

Lemma _siftdown_loop_ordered fuel heap newitem pos heap' pos' :
  _siftdown_loop fuel heap newitem 0 pos = Ok (heap', pos') →
  (pos < length heap)%nat →
  ordered_but_parent heap pos (freq newitem) →
  ordered_keys (<[pos':=newitem]> heap').
Proof.
  revert heap pos.
  induction fuel as [|fuel IH]; intros heap pos Hrun Hpos [Hnodes Hchildren].
  - simpl in Hrun. case_decide; [done|]. simplify_eq.
    intros i Hi. rewrite length_insert in Hi. rewrite !key_insert.
    pose proof (Hnodes i Hi) as Hnode. unfold val in Hnode.
    heap_cases.
  - simpl in Hrun. case_decide as Hlt.
    2:{ simplify_eq. intros i Hi. rewrite length_insert in Hi.
        rewrite !key_insert. pose proof (Hnodes i Hi) as Hnode.
        unfold val in Hnode. heap_cases. }
    bind_ok Hrun. rename a into parent. rename H into Hparent.
    apply list_get_key in Hparent.
    pose proof (TreeNode_lt_spec newitem parent) as Hcmp.
    destruct (TreeNode_lt newitem parent).
    + bind_ok Hrun. apply list_set_Ok in H as [_ ->].
      apply IH in Hrun; [done|rewrite length_insert; heap_lia|].
      split.
      * intros i Hi Hne. rewrite length_insert in Hi. unfold val.
        rewrite !key_insert.
        pose proof (Hnodes i Hi) as Hnode.
        pose proof (Hnodes (Nat.div2 (pos - 1))) as Hup.
        pose proof (Hchildren i) as Hdown.
        unfold val in Hnode, Hup.
        heap_cases.
      * intros c Hpp Hc Hchild. rewrite length_insert in Hc.
        rewrite !key_insert.
        pose proof (Hnodes c) as Hnode.
        pose proof (Hnodes (Nat.div2 (pos - 1))) as Hup.
        assert (Nat.div2 (c - 1) = Nat.div2 (pos - 1)) as Hsame by heap_lia.
        unfold val in Hnode, Hup. rewrite Hsame in Hnode.
        heap_cases.
    + simplify_eq. intros i Hi. rewrite length_insert in Hi.
      rewrite !key_insert. pose proof (Hnodes i Hi) as Hnode.
      unfold val in Hnode. heap_cases.
Qed.

Lemma smaller_child heap childpos c :
  (if decide (childpos + 1 < length heap)%nat then
     let* l := list_get heap childpos in
     let* r := list_get heap (childpos + 1)%nat in
     Ok (if negb (TreeNode_lt l r) then (childpos + 1)%nat else childpos)
   else Ok childpos) = Ok c →
  (childpos < length heap)%nat →
  (c = childpos ∨ c = childpos + 1)%nat ∧ (c < length heap)%nat ∧
  key heap c ≤ key heap childpos ∧
  ((childpos + 1 < length heap)%nat → key heap c ≤ key heap (childpos + 1)).
Proof.
  intros Hpick Hchild. case_decide as Hright.
  - bind_ok Hpick. rename a into l. rename H into Hl.
    bind_ok Hpick. rename a into r. rename H into Hr.
    apply list_get_key in Hl, Hr.
    pose proof (TreeNode_lt_spec l r) as Hcmp.
    destruct (TreeNode_lt l r); simpl in Hpick; simplify_eq;
      split_and!; auto; lia.
  - simplify_eq. split_and!; auto; lia.
Qed.

Lemma _siftup_loop_ordered fuel heap pos heap' pos' :
  _siftup_loop fuel heap (length heap) pos (2 * pos + 1) = Ok (heap', pos') →
  (pos < length heap)%nat →
  ordered_but_hole heap pos →
  ordered_but_hole heap' pos' ∧ length heap' = length heap ∧
  (pos' < length heap ≤ 2 * pos' + 1)%nat.
Proof.
  revert heap pos.
  induction fuel as [|fuel IH]; intros heap pos Hrun Hpos [Hnodes Hchildren];
    cbn [_siftup_loop] in Hrun; case_decide as Hlt;
    try done; try (simplify_eq; split_and!; [by split|lia..]).
  bind_ok Hrun. rename a into c. rename H into Hpick.
  apply smaller_child in Hpick as (Hc & Hclen & Hleft & Hright); [|done].
  replace (2 * pos + 1 + 1)%nat with (2 * pos + 2)%nat in * by lia.
  bind_ok Hrun. rename a into child. rename H into Hchild.
  apply list_get_key in Hchild.
  bind_ok Hrun. apply list_set_Ok in H as [_ ->].
  rewrite <-(length_insert heap pos child) in Hrun.
  apply IH in Hrun; [|rewrite length_insert; lia|].
  { rewrite !length_insert in Hrun. done. }
  split.
  - intros i Hi Hne Hparent. rewrite length_insert in Hi.
    rewrite !key_insert.
    pose proof (Hnodes i Hi) as Hnode.
    pose proof (Hchildren c) as Hdown.
    destruct (decide (Nat.div2 (i - 1) = pos)) as [Hsib|Hother].
    + assert (i = 2 * pos + 1 ∨ i = 2 * pos + 2)%nat as [-> | ->]
        by heap_lia; heap_cases.
    + heap_cases.
  - intros d Hcpos Hd Hdc. rewrite length_insert in Hd.
    rewrite !key_insert.
    pose proof (Hnodes d) as Hnode.
    assert (Nat.div2 (d - 1) = c) as Hsame by heap_lia.
    assert (Nat.div2 (c - 1) = pos) as Hup by heap_lia.
    rewrite Hsame in Hnode. rewrite Hup.
    heap_cases.
Qed.

Lemma key_lookup heap i x : heap !! i = Some x → key heap i = freq x.
Proof. intros Hi. unfold key. by rewrite Hi. Qed.

Lemma key_app_l heap heap2 i :
  (i < length heap)%nat → key (heap ++ heap2) i = key heap i.
Proof. intros Hi. unfold key. by rewrite lookup_app_l. Qed.

Lemma ordered_keys_iff heap : heap_ordered heap ↔ ordered_keys heap.
Proof.
  split.
  - intros Hheap i Hi.
    destruct (lookup_lt_is_Some_2 heap i) as [child Hchild]; [lia|].
    destruct (lookup_lt_is_Some_2 heap (Nat.div2 (i - 1))) as [node Hnode];
      [heap_lia|].
    rewrite (key_lookup _ _ _ Hchild), (key_lookup _ _ _ Hnode).
    apply (Hheap (Nat.div2 (i - 1))); [done|].
    assert (i = 2 * Nat.div2 (i - 1) + 1 ∨ i = 2 * Nat.div2 (i - 1) + 2)%nat
      as [Heq|Heq] by heap_lia; rewrite <-Heq; auto.
  - intros Hkeys k node child Hnode Hchild.
    assert (∃ c, heap !! c = Some child ∧ (c = 2 * k + 1 ∨ c = 2 * k + 2)%nat)
      as (c & Hc & Hck) by (destruct Hchild; eauto).
    pose proof (lookup_lt_Some _ _ _ Hc) as Hlt.
    pose proof (Hkeys c) as Hle.
    assert (Nat.div2 (c - 1) = k) as Hparent by heap_lia.
    rewrite Hparent, (key_lookup _ _ _ Hc), (key_lookup _ _ _ Hnode) in Hle.
    apply Hle. lia.
Qed.

Lemma heap_root_minimal heap i :
  ordered_keys heap → (i < length heap)%nat → key heap 0 ≤ key heap i.
Proof.
  intros Hkeys. induction i as [i IH] using lt_wf_ind. intros Hi.
  destruct (decide (i = 0%nat)) as [->|Hpos]; [done|].
  etrans; [apply (IH (Nat.div2 (i - 1))); heap_lia|].
  apply Hkeys. lia.
Qed.

Lemma heappush_ordered heap item heap' :
  ordered_keys heap → heappush heap item = Ok heap' → ordered_keys heap'.
Proof.
  intros Hkeys. unfold heappush, _siftdown.
  rewrite length_app. simpl.
  replace (length heap + 1 - 1)%nat with (length heap) by lia.
  assert (list_get (heap ++ [item]) (length heap) = Ok item) as ->.
  { apply list_get_Ok. by rewrite lookup_app_r, Nat.sub_diag. }
  cbn [bind]. intros Hrun. bind_ok Hrun. destruct a as [heap1 pos1].
  apply list_set_Ok in Hrun as [_ ->].
  eapply _siftdown_loop_ordered; [done|rewrite length_app; simpl; lia|].
  split.
  - intros i Hi Hne. rewrite length_app in Hi. simpl in Hi. unfold val.
    rewrite !decide_False by heap_lia.
    rewrite !key_app_l by heap_lia. apply Hkeys. lia.
  - intros c _ Hc Hchild. rewrite length_app in Hc. simpl in Hc. lia.
Qed.

Lemma _siftup_ordered heap heap' :
  _siftup heap 0 = Ok heap' → (0 < length heap)%nat →
  ordered_but_hole heap 0 → ordered_keys heap'.
Proof.
  unfold _siftup, _siftdown. intros Hrun Hlen Hhole.
  bind_ok Hrun. rename a into newitem.
  bind_ok Hrun. destruct a as [heap1 pos1]. rename H0 into Hup.
  apply _siftup_loop_ordered in Hup as ([Hnodes _] & Hlen1 & Hleaf);
    [|done..].
  bind_ok Hrun. apply list_set_Ok in H0 as [Hpos1 ->].
  bind_ok Hrun. rename H0 into Hget.
  apply list_get_Ok in Hget. rewrite list_lookup_insert_eq in Hget by done.
  simplify_eq.
  bind_ok Hrun. destruct a0 as [heap3 pos3].
  apply list_set_Ok in Hrun as [_ ->].
  eapply _siftdown_loop_ordered; [done|by rewrite length_insert|].
  split.
  - intros i Hi Hne. rewrite length_insert in Hi. unfold val.
    rewrite !key_insert.
    pose proof (Hnodes i) as Hnode.
    destruct (decide (Nat.div2 (i - 1) = pos1)) as [Hchild|Hother];
      [heap_lia|].
    rewrite !decide_False by done. apply Hnode; [lia|done..].
  - intros c _ Hc Hchild. rewrite length_insert in Hc. lia.
Qed.

Lemma heappop_ordered heap item heap' :
  ordered_keys heap → heappop heap = Ok (item, heap') →
  ordered_keys heap' ∧ ∀ i, (i < length heap)%nat → freq item ≤ key heap i.
Proof.
  intros Hkeys Hpop.
  destruct heap as [|returnitem heap] using rev_ind; [done|]. clear IHheap.
  rename returnitem into lastelt.
  unfold heappop in Hpop. rewrite list_pop_snoc in Hpop. cbn [bind] in Hpop.
  destruct heap as [|returnitem heap].
  { simplify_eq. split; [intros i Hi; simpl in Hi; lia|].
    intros [|i] Hi; simpl in *; [done|lia]. }
  change (list_get (returnitem :: heap) 0) with (Ok returnitem) in Hpop.
  cbn [bind] in Hpop.
  rewrite list_set_lt in Hpop by (simpl; lia).
  cbn [bind insert list_insert] in Hpop.
  bind_ok Hpop. simplify_eq. rename H into Hup. split.
  - apply _siftup_ordered in Hup; [done|simpl; lia|].
    split; [|lia].
    intros i Hi Hne Hparent. simpl in Hi.
    pose proof (Hkeys i) as Hnode.
    rewrite length_app in Hnode. simpl in Hnode.
    change (item :: heap ++ [lastelt])
      with ((item :: heap) ++ [lastelt]) in Hnode.
    rewrite !(key_app_l (item :: heap)) in Hnode
      by (simpl; heap_lia).
    unfold key in *.
    destruct i as [|i]; [done|].
    destruct (Nat.div2 (S i - 1)) as [|q] eqn:Hq; [done|].
    simpl in *. apply Hnode. lia.
  - intros i Hi.
    change (freq item) with (key ((item :: heap) ++ [lastelt]) 0).
    by apply heap_root_minimal.
Qed.

Lemma heappop_smallest heap item heap' :
  ordered_keys heap → heappop heap = Ok (item, heap') →
  ordered_keys heap' ∧ Forall (λ node, freq item ≤ freq node) heap'.
Proof.
  intros Hkeys Hpop.
  destruct (heappop_ordered heap item heap' Hkeys Hpop) as [Hkeys' Hmin].
  split; [done|]. apply Forall_forall. intros node Hin.
  assert (node ∈ heap) as [i Hi]%list_elem_of_lookup.
  { rewrite (heappop_Permutation _ _ _ Hpop). by apply list_elem_of_further. }
  rewrite <-(key_lookup _ _ _ Hi). apply Hmin. by eapply lookup_lt_Some.
Qed.

Lemma make_heap_ordered_from freqs heap0 heap :
  ordered_keys heap0 →
  for_each (λ minheap kv, heappush minheap (TreeNode_init [kv.1] kv.2))
    freqs heap0 = Ok heap →
  ordered_keys heap.
Proof.
  revert heap0. induction freqs as [|kv freqs IH]; intros heap0 Hkeys Hrun;
    simpl in Hrun.
  - by simplify_eq.
  - bind_ok Hrun. eapply IH; [|done]. by eapply heappush_ordered.
Qed.

Lemma loop_state_ordered s minheap : loop_state s minheap → ordered_keys minheap.
Proof.
  induction 1 as [minheap Hmake|minheap node1 heap1 node2 heap2 minheap'
                    _ IH Hpop1 Hpop2 _ Hpush].
  - eapply (make_heap_ordered_from _ []); [|exact Hmake].
    intros i Hi. simpl in Hi. lia.
  - apply heappop_smallest in Hpop1 as [Hkeys1 _]; [|done].
    apply heappop_smallest in Hpop2 as [Hkeys2 _]; [|done].
    by apply (heappush_ordered heap2 (merge node1 node2)).
Qed.

Lemma loop_state_merged s minheap :
  loop_state s minheap →
  Forall merged minheap ∧ sum_freq minheap = Z.of_nat (length s).
Proof.
  induction 1 as [minheap Hmake|minheap node1 heap1 node2 heap2 minheap'
                    _ [Hm Hsum] Hpop1 Hpop2 _ Hpush].
  - destruct (make_heap_Ok (make_dict s)) as (heap & Hheap & Hperm).
    rewrite Hmake in Hheap. simplify_eq. split.
    + rewrite Hperm. apply leaves_merged, make_dict_positive.
    + by rewrite (sum_freq_Permutation _ _ Hperm), leaves_sum_freq,
        make_dict_sum.
  - apply heappop_Permutation in Hpop1, Hpop2.
    destruct (heappush_Ok heap2 (merge node1 node2)) as (heap3 & Hpush' & Hperm).
    rewrite Hpush in Hpush'. simplify_eq.
    rewrite Hpop2 in Hpop1. rewrite Hpop1 in Hm.
    rewrite (sum_freq_Permutation _ _ Hpop1) in Hsum.
    apply Forall_cons in Hm as [Hm1 Hm].
    apply Forall_cons in Hm as [Hm2 Hm]. split.
    + rewrite Hperm. constructor; [by constructor|done].
    + rewrite (sum_freq_Permutation _ _ Hperm). simpl in *. lia.
Qed.

Lemma loop_state_length s minheap :
  two_distinct s → loop_state s minheap → (2 ≤ length minheap)%nat.
Proof.
  intros Htwo Hstate. pose proof Hstate as Hstate'.
  destruct Hstate as [minheap Hmake|minheap node1 heap1 node2 heap2 minheap'
                        Hprev Hpop1 Hpop2 Hexit Hpush].
  - destruct (make_heap_Ok (make_dict s)) as (heap & Hheap & Hperm).
    rewrite Hmake in Hheap. simplify_eq.
    rewrite (Permutation_length Hperm), length_fmap.
    by apply make_dict_two_distinct.
  - destruct (loop_state_merged s minheap Hprev) as [Hm Hsum].
    destruct (heappush_Ok heap2 (merge node1 node2)) as (heap3 & Hpush' & Hperm).
    rewrite Hpush in Hpush'. simplify_eq.
    rewrite (Permutation_length Hperm). simpl.
    destruct heap2 as [|node heap2]; [|simpl; lia].
    destruct Hexit.
    by apply (exit_iff_emptied minheap _ node1 heap1 node2 []).
Qed.

(** X1: the loop of lines 91 to 93 builds, for every frequency table, a
    heap that satisfies the invariant of heapq and holds exactly one leaf
    per entry of the table. *)
Theorem make_heap_is_heap (freqs : dict ascii Z) :
  ∃ minheap,
    make_heap freqs = Ok minheap ∧ heap_ordered minheap ∧
    minheap ≡ₚ leaf_of <$> freqs.
Proof.
  destruct (make_heap_Ok freqs) as (minheap & Hmake & Hperm).
  exists minheap. split_and!; [done| |done].
  apply ordered_keys_iff. eapply (make_heap_ordered_from _ []); [|exact Hmake].
  intros i Hi. simpl in Hi. lia.
Qed.

(** X2: for an input with at least two distinct symbols, every iteration
    of the merge loop finds the heap in order, and its two pops succeed and
    take out the two nodes of smallest frequency: the first is at most the
    second, which is at most every node left on the heap. *)
Theorem merge_loop_pops_two_smallest s minheap :
  two_distinct s → loop_state s minheap →
  heap_ordered minheap ∧
  ∃ node1 heap1 node2 heap2,
    heappop minheap = Ok (node1, heap1) ∧
    heappop heap1 = Ok (node2, heap2) ∧
    minheap ≡ₚ node1 :: node2 :: heap2 ∧
    freq node1 ≤ freq node2 ∧
    Forall (λ node, freq node2 ≤ freq node) heap2.
Proof.
  intros Htwo Hstate.
  pose proof (loop_state_ordered s minheap Hstate) as Hkeys.
  split; [by apply ordered_keys_iff|].
  destruct (heappop_twice minheap (loop_state_length s minheap Htwo Hstate))
    as (node1 & heap1 & node2 & heap2 & Hpop1 & Hpop2 & Hperm).
  exists node1, heap1, node2, heap2. split_and!; [done..| |].
  - destruct (heappop_smallest _ _ _ Hkeys Hpop1) as [_ Hmin].
    rewrite Forall_forall in Hmin. apply Hmin.
    rewrite (heappop_Permutation _ _ _ Hpop2). apply list_elem_of_here.
  - destruct (heappop_smallest _ _ _ Hkeys Hpop1) as [Hkeys1 _].
    by destruct (heappop_smallest _ _ _ Hkeys1 Hpop2).
Qed.

Lemma merge_loop_pops_two_smallest_witness :
  heap_ordered (leaf_of <$> [("b", 1); ("a", 2); ("c", 1)]%char) ∧
  ∃ node1 heap1 node2 heap2,
    heappop (leaf_of <$> [("b", 1); ("a", 2); ("c", 1)]%char) =
      Ok (node1, heap1) ∧
    heappop heap1 = Ok (node2, heap2) ∧
    leaf_of <$> [("b", 1); ("a", 2); ("c", 1)]%char ≡ₚ
      node1 :: node2 :: heap2 ∧
    freq node1 ≤ freq node2 ∧
    Forall (λ node, freq node2 ≤ freq node) heap2.
Proof.
  apply (merge_loop_pops_two_smallest (py "abca")).
  - apply two_distinct_check. reflexivity.
  - apply loop_start. reflexivity.
Defined.

(** ** The frequency table *)

Lemma dict_get_setitem {K V} `{EqDecision K} (d : dict K V) k v k' :
  dict_get (dict_setitem d k v) k' =
  if decide (k' = k) then Some v else dict_get d k'.
Proof.
  induction d as [|[k0 v0] d IH]; simpl.
  - by destruct (decide (k' = k)).
  - destruct (decide (k = k0)) as [->|Hne]; simpl.
    + by destruct (decide (k' = k0)).
    + rewrite IH. destruct (decide (k' = k0)) as [->|]; [|done].
      by rewrite decide_False.
Qed.

Lemma make_dict_default data c :
  default 0 (dict_get (make_dict data) c) =
  Z.of_nat (count_occ ascii_dec data c).
Proof.
  induction data as [|c' data IH] using rev_ind; [done|].
  rewrite make_dict_snoc, dict_get_setitem, count_occ_app. simpl.
  destruct (decide (c = c')) as [->|Hne].
  - rewrite IH. destruct (ascii_dec c' c'); [simpl; lia|done].
  - rewrite IH. destruct (ascii_dec c' c); [congruence|simpl; lia].
Qed.

(** X3: [make_dict] counts: a symbol of the input is mapped to the number
    of its occurrences, and a symbol that does not occur has no entry. *)
Theorem make_dict_counts data c :
  dict_get (make_dict data) c =
  if decide (c ∈ data) then Some (Z.of_nat (count_occ ascii_dec data c))
  else None.
Proof.
  pose proof (make_dict_default data c) as Hcount.
  pose proof (make_dict_keys data c) as Hkeys.
  pose proof (dict_get_None (make_dict data) c) as Hnone.
  destruct (decide (c ∈ data)) as [Hin|Hout].
  - destruct (dict_get (make_dict data) c) as [v|]; simpl in *.
    + by rewrite Hcount.
    + destruct (proj1 Hnone eq_refl). by apply Hkeys.
  - apply Hnone. by rewrite Hkeys.
Qed.

(** X4: the entries of the table are in the order in which the symbols
    first occur in the input, each symbol once. *)
Theorem make_dict_order data :
  (make_dict data).*1 = first_occurrences data.
Proof.
  unfold first_occurrences.
  induction data as [|c data IH] using rev_ind; [done|].
  rewrite make_dict_snoc, dict_setitem_keys, reverse_snoc. simpl.
  rewrite IH.
  destruct (decide_rel elem_of c (reverse data)) as [Hin|Hout].
  - rewrite decide_True; [done|].
    by rewrite elem_of_reverse, elem_of_remove_dups.
  - rewrite decide_False, reverse_cons; [done|].
    by rewrite elem_of_reverse, elem_of_remove_dups.
Qed.

(** ** tree_dfs on any tree *)

Lemma tree_dfs_leaf_nodes node curstr :
  Forall (λ leaf, left leaf = None ∧ right leaf = None)
    (tree_dfs node curstr []).
Proof.
  revert curstr.
  induction node as [|l f lft rgt e IHl IHr] using option_TreeNode_ind;
    intros curstr; [constructor|].
  rewrite tree_dfs_unfold.
  assert (Forall (λ leaf, left leaf = None ∧ right leaf = None)
            (tree_dfs rgt (curstr ++ ["1"%char]) [] ++
             tree_dfs lft (curstr ++ ["0"%char]) [])) as Hboth
    by (apply Forall_app; split; auto).
  destruct rgt, lft; try done. by repeat constructor.
Qed.

(** X5: for every tree, also one with nodes that have a single child, and
    every starting string, [tree_dfs] keeps the leaves it was given and
    appends nodes without children whose encodings extend the starting
    string, none of them a prefix of another. *)
Theorem tree_dfs_any_tree node curstr leaves :
  ∃ found,
    tree_dfs node curstr leaves = leaves ++ found ∧
    Forall (λ leaf, left leaf = None ∧ right leaf = None ∧
                    curstr `prefix_of` encoding leaf) found ∧
    prefix_free (encoding <$> found).
Proof.
  exists (tree_dfs node curstr []). split_and!.
  - apply tree_dfs_acc.
  - pose proof (tree_dfs_leaf_nodes node curstr) as Hleaf.
    pose proof (tree_dfs_extends node curstr) as Hext.
    rewrite Forall_forall in Hleaf, Hext. apply Forall_forall.
    intros leaf Hin. destruct (Hleaf leaf Hin). auto.
  - apply tree_dfs_prefix_free.
Qed.

(** ** The leaves of the tree *)

Lemma leaf_table_curstr node curstr :
  (λ leaf, (letter leaf, freq leaf)) <$> tree_dfs node curstr [] =
  leaf_table node.
Proof.
  unfold leaf_table. generalize (@nil ascii) as curstr'. revert curstr.
  induction node as [|l f lft rgt e IHl IHr] using option_TreeNode_ind;
    intros curstr curstr'; [done|].
  rewrite !tree_dfs_unfold.
  assert ((λ leaf, (letter leaf, freq leaf)) <$>
            (tree_dfs rgt (curstr ++ ["1"%char]) [] ++
             tree_dfs lft (curstr ++ ["0"%char]) []) =
          (λ leaf, (letter leaf, freq leaf)) <$>
            (tree_dfs rgt (curstr' ++ ["1"%char]) [] ++
             tree_dfs lft (curstr' ++ ["0"%char]) [])) as Hboth.
  { rewrite !fmap_app. f_equal; [apply IHr|apply IHl]. }
  destruct rgt, lft; done.
Qed.

Lemma leaf_table_merge node1 node2 :
  leaf_table (Some (merge node1 node2)) ≡ₚ
  leaf_table (Some node1) ++ leaf_table (Some node2).
Proof.
  unfold leaf_table at 1. unfold merge. rewrite tree_dfs_unfold.
  rewrite fmap_app, !leaf_table_curstr. apply Permutation_app_comm.
Qed.

Lemma build_tree_leaf_table fuel heap n root :
  Forall merged heap → sum_freq heap = n →
  build_tree fuel heap n = Ok root →
  leaf_table (Some root) ≡ₚ mjoin ((λ node, leaf_table (Some node)) <$> heap).
Proof.
  revert heap. induction fuel as [|fuel IH]; intros heap Hheap Hsum Hrun;
    [done|].
  simpl in Hrun. bind_ok Hrun. destruct a as [node1 heap1].
  rename H into Hpop1.
  bind_ok Hrun. destruct a as [node2 heap2]. rename H into Hpop2.
  pose proof (exit_iff_emptied heap n node1 heap1 node2 heap2
                Hheap Hsum Hpop1 Hpop2) as Hexit.
  apply heappop_Permutation in Hpop1, Hpop2. rewrite Hpop2 in Hpop1.
  rewrite Hpop1. rewrite Hpop1 in Hheap.
  apply Forall_cons in Hheap as [Hm1 Hheap].
  apply Forall_cons in Hheap as [Hm2 Hheap].
  rewrite (sum_freq_Permutation _ _ Hpop1) in Hsum.
  match type of Hrun with
  | context [if ?c then _ else _] => destruct c eqn:Hcond
  end.
  - apply Z.eqb_eq in Hcond. simplify_eq.
    rewrite (proj1 Hexit Hcond). simpl.
    by rewrite app_nil_r, leaf_table_merge.
  - bind_ok Hrun. rename a into heap3.
    destruct (heappush_Ok heap2 (merge node1 node2)) as (heap3' & Hpush & Hperm).
    rewrite H in Hpush. simplify_eq.
    rewrite (IH heap3'); [|rewrite Hperm; constructor; [by constructor|done]
                          |rewrite (sum_freq_Permutation _ _ Hperm);
                           simpl in *; lia|done].
    rewrite Hperm. simpl. by rewrite leaf_table_merge, app_assoc.
Qed.

(** X6: the leaves of the tree built for an input with at least two
    distinct symbols are the entries of the frequency table: [tree_dfs]
    finds one leaf per symbol, with that symbol as its letter and the
    count of the symbol as its frequency. *)
Theorem huffman_tree_leaves s :
  two_distinct s →
  ∃ root,
    huffman_tree s = Ok root ∧
    leaf_table (Some root) ≡ₚ (λ kv, ([kv.1], kv.2)) <$> make_dict s.
Proof.
  intros Htwo.
  destruct (huffman_tree_Ok s Htwo) as (node1 & node2 & Hrun & _).
  exists (merge node1 node2). split; [done|].
  unfold huffman_tree in Hrun.
  destruct (make_heap_Ok (make_dict s)) as (heap & Hheap & Hperm).
  rewrite Hheap in Hrun. cbn [bind] in Hrun.
  assert (Forall merged heap) as Hm
    by (rewrite Hperm; apply leaves_merged, make_dict_positive).
  assert (sum_freq heap = Z.of_nat (length s)) as Hsum
    by (by rewrite (sum_freq_Permutation _ _ Hperm), leaves_sum_freq,
          make_dict_sum).
  rewrite (build_tree_leaf_table _ _ _ _ Hm Hsum Hrun), Hperm. clear.
  induction (make_dict s) as [|kv freqs IH]; [done|].
  rewrite !fmap_cons. simpl. by rewrite IH.
Qed.

Lemma huffman_tree_leaves_witness :
  ∃ root,
    huffman_tree (py "abracadabra") = Ok root ∧
    leaf_table (Some root) ≡ₚ
    (λ kv, ([kv.1], kv.2)) <$> make_dict (py "abracadabra").
Proof.
  apply huffman_tree_leaves. apply two_distinct_check. reflexivity.
Defined.

(** ** The code book and the payload *)

Lemma code_book_entries s :
  two_distinct s →
  ∃ root,
    huffman_tree s = Ok root ∧
    code_book s = Ok (entry <$> tree_dfs (Some root) [] []).
Proof.
  intros Htwo.
  destruct (huffman_tree_Ok s Htwo)
    as (node1 & node2 & Htree & _ & Hm & Hletters).
  exists (merge node1 node2). split; [done|].
  unfold code_book. rewrite Htree. cbn [bind].
  set (leaves := tree_dfs (Some (merge node1 node2)) [] []).
  destruct (tree_dfs_merged (merge node1 node2) [] Hm) as (Hlen & Hperm & _).
  fold leaves in Hlen, Hperm.
  pose proof (tree_dfs_prefix_free (Some (merge node1 node2)) []) as Hfree.
  fold leaves in Hfree.
  assert (NoDup (letter <$> leaves)) as Hnd.
  { rewrite (singletons_join (letter <$> leaves)) by (by apply Forall_fmap).
    apply NoDup_fmap_2; [by intros ?? [=]|].
    rewrite Hperm, Hletters. apply make_dict_NoDup. }
  rewrite make_encoding_to_char_Ok; [|done|by apply prefix_free_NoDup].
  cbn [bind].
  rewrite dict_invert_NoDup by (by rewrite <-list_fmap_compose).
  by rewrite <-list_fmap_compose.
Qed.

(** X7: the code book of an input with at least two distinct symbols has
    one entry per entry of the frequency table: its keys are the symbols
    as one-character strings, and its codes are non-empty strings of the
    characters 0 and 1. *)
Theorem code_book_keys_and_codes s :
  two_distinct s →
  ∃ book,
    code_book s = Ok book ∧
    book.*1 ≡ₚ (λ c, [c]) <$> (make_dict s).*1 ∧
    Forall (λ code, code ≠ [] ∧ Forall is_bit code) book.*2.
Proof.
  intros Htwo.
  destruct (code_book_entries s Htwo) as (root & Htree & Hbook).
  destruct (code_book_Ok s Htwo) as (book & Hbook' & _ & _ & _ & Hcodes).
  rewrite Hbook in Hbook'. simplify_eq.
  eexists. split_and!; [done| |done].
  destruct (huffman_tree_Ok s Htwo) as (node1 & node2 & Htree' & _ & Hm & _).
  rewrite Htree in Htree'. simplify_eq.
  assert (Forall merged [merge node1 node2]) as Hheap by (by constructor).
  transitivity ((leaf_table (Some (merge node1 node2))).*1).
  { unfold leaf_table. by rewrite <-!list_fmap_compose. }
  unfold huffman_tree in Htree.
  destruct (make_heap_Ok (make_dict s)) as (heap & Hmake & Hperm).
  rewrite Hmake in Htree. cbn [bind] in Htree.
  assert (Forall merged heap) as Hmerged
    by (rewrite Hperm; apply leaves_merged, make_dict_positive).
  assert (sum_freq heap = Z.of_nat (length s)) as Hsum
    by (by rewrite (sum_freq_Permutation _ _ Hperm), leaves_sum_freq,
          make_dict_sum).
  rewrite (build_tree_leaf_table _ _ _ _ Hmerged Hsum Htree), Hperm. clear.
  induction (make_dict s) as [|kv freqs IH]; [done|].
  rewrite !fmap_cons. simpl. apply perm_skip, IH.
Qed.

Lemma code_book_keys_and_codes_witness :
  ∃ book,
    code_book (py "abracadabra") = Ok book ∧
    book.*1 ≡ₚ (λ c, [c]) <$> (make_dict (py "abracadabra")).*1 ∧
    Forall (λ code, code ≠ [] ∧ Forall is_bit code) book.*2.
Proof.
  apply code_book_keys_and_codes. apply two_distinct_check. reflexivity.
Defined.

(** The sum over the entries of the table of count times weight. *)
Lemma weighted_sum_setitem (weight : ascii → Z) (d : dict ascii Z) k v :
  foldr (λ kv acc, kv.2 * weight kv.1 + acc) 0 (dict_setitem d k v) =
  foldr (λ kv acc, kv.2 * weight kv.1 + acc) 0 d +
  (v - default 0 (dict_get d k)) * weight k.
Proof.
  induction d as [|[k' v'] d IH]; simpl; [lia|].
  destruct (decide (k = k')) as [->|]; simpl; [lia|]. rewrite IH. lia.
Qed.

Lemma sum_from (weight : ascii → Z) (s : str) b :
  foldr (λ c acc, weight c + acc) b s =
  foldr (λ c acc, weight c + acc) 0 s + b.
Proof. induction s as [|c s IH]; simpl; lia. Qed.

Lemma weighted_sum_make_dict (weight : ascii → Z) s :
  foldr (λ kv acc, kv.2 * weight kv.1 + acc) 0 (make_dict s) =
  foldr (λ c acc, weight c + acc) 0 s.
Proof.
  induction s as [|c s IH] using rev_ind; [done|].
  rewrite make_dict_snoc, weighted_sum_setitem, IH, foldr_app. simpl.
  rewrite (sum_from _ _ (weight c + 0)). lia.
Qed.

Lemma length_join_codes (code : ascii → str) s :
  Z.of_nat (length (mjoin (code <$> s))) =
  foldr (λ c acc, Z.of_nat (length (code c)) + acc) 0 s.
Proof.
  induction s as [|c s IH]; [done|].
  rewrite fmap_cons. simpl. rewrite length_app, <-IH. lia.
Qed.

(** X8: the number of bits of the payload that encode builds is the sum,
    over the entries of the frequency table, of the count of the symbol
    times the length of its code. *)
Theorem payload_length s :
  two_distinct s →
  ∃ book int_str,
    code_book s = Ok book ∧ join_codes book s = Ok int_str ∧
    Z.of_nat (length int_str) =
    foldr (λ kv acc, kv.2 * Z.of_nat (length (code_of book kv.1)) + acc) 0
      (make_dict s).
Proof.
  intros Htwo. destruct (code_book_Ok s Htwo) as (book & Hbook & Hgood).
  exists book, (mjoin (code_of book <$> s)). split_and!; [done| |].
  - apply join_codes_Ok. intros c Hc. by apply Hgood.
  - by rewrite length_join_codes,
      (weighted_sum_make_dict (λ c, Z.of_nat (length (code_of book c)))).
Qed.

Lemma payload_length_witness :
  ∃ book int_str,
    code_book (py "abracadabra") = Ok book ∧
    join_codes book (py "abracadabra") = Ok int_str ∧
    Z.of_nat (length int_str) =
    foldr (λ kv acc, kv.2 * Z.of_nat (length (code_of book kv.1)) + acc) 0
      (make_dict (py "abracadabra")).
Proof. apply payload_length. apply two_distinct_check. reflexivity. Defined.

(** ** The count of zeros *)

Lemma pack_leading_zeros k rest :
  Forall is_bit rest →
  ∃ hex_str,
    pack (replicate k "0"%char ++ "1"%char :: rest) =
    Ok (hex_str, replicate k "0"%char ++ "1"%char :: rest, k).
Proof.
  intros Hrest.
  destruct (int_digits_bits 1 rest Hrest) as (n & Hn & _).
  destruct (hex_Ok n) as (hex_str & Hhex & Hback).
  exists hex_str. unfold pack.
  assert (int_ (replicate k "0"%char ++ "1"%char :: rest) 2 = Ok n) as ->.
  { unfold int_. rewrite strip_base_prefix_bits.
    - assert (int_digits 2 0 (replicate k "0"%char ++ "1"%char :: rest)
              = Ok n) as Hint by (by rewrite int_digits_zeros).
      destruct k; exact Hint.
    - apply Forall_app. split; [|constructor; [by right|done]].
      apply Forall_replicate. by left. }
  cbn [bind]. rewrite Hhex. cbn [bind]. rewrite Hback. cbn [bind].
  unfold bin. rewrite (format_digits_bits _ rest n Hrest Hn (fuel_log2 n)).
  cbn [bind drop]. rewrite add_zeros_Ok; [done|].
  rewrite length_app, length_replicate. lia.
Qed.

Lemma pack_all_zeros k :
  pack (replicate (S k) "0"%char) =
  Ok (py "0x0", replicate (S k) "0"%char, k).
Proof.
  unfold pack.
  assert (int_ (replicate (S k) "0"%char) 2 = Ok 0%N) as ->.
  { unfold int_. rewrite strip_base_prefix_bits
      by (apply Forall_replicate; by left).
    change (int_digits 2 0 (replicate (S k) "0"%char) = Ok 0%N).
    by rewrite <-(app_nil_r (replicate (S k) _)), int_digits_zeros. }
  cbn [bind]. change (hex 0) with (Ok (py "0x0")). cbn [bind].
  change (int_ (py "0x0") 16) with (Ok 0%N). cbn [bind].
  change (bin 0) with (Ok (py "0b0")). cbn [bind].
  change (drop 2 (py "0b0")) with ["0"%char].
  rewrite (replicate_S_end k). rewrite add_zeros_Ok; [done|].
  rewrite length_app, length_replicate. simpl. lia.
Qed.

(** X9: for a bit string with [k] leading zeros followed by a one, the
    conversion of encode records exactly [k] zeros to add; for a string of
    [k + 1] zeros the hex string is [0x0] and [k] zeros are recorded, the
    last zero being the digit that [bin] gives back. *)
Theorem pack_counts_zeros k rest :
  Forall is_bit rest →
  (∃ hex_str,
     pack (replicate k "0"%char ++ "1"%char :: rest) =
     Ok (hex_str, replicate k "0"%char ++ "1"%char :: rest, k)) ∧
  pack (replicate (S k) "0"%char) =
  Ok (py "0x0", replicate (S k) "0"%char, k).
Proof.
  intros Hrest. split; [by apply pack_leading_zeros|apply pack_all_zeros].
Qed.

Lemma pack_counts_zeros_witness :
  (∃ hex_str, pack (py "00101") = Ok (hex_str, py "00101", 2%nat)) ∧
  pack (py "000") = Ok (py "0x0", py "000", 2%nat).
Proof.
  apply (pack_counts_zeros 2 (py "01")).
  repeat constructor; by (left + right).
Defined.

(** ** The bits that decode leaves *)

Lemma decode_loop_strict fuel bin_str (encoding_to_char : dict str str)
    original i :
  (i < length bin_str)%nat → (length bin_str ≤ fuel + i)%nat →
  ∃ codes chars rest,
    decode_loop fuel bin_str encoding_to_char original i =
      Ok (original ++ mjoin chars) ∧
    drop i bin_str = mjoin codes ++ rest ∧ rest ≠ [] ∧
    Forall2 (λ code char, dict_get encoding_to_char code = Some char)
      codes chars.
Proof.
  revert original i.
  induction fuel as [|fuel IH]; intros original i Hi Hfuel; [lia|].
  assert (drop i bin_str ≠ []) as Hrest.
  { intros Hnil%(f_equal length). rewrite length_drop in Hnil.
    simpl in Hnil. lia. }
  simpl. rewrite bool_decide_true by done.
  destruct (scan_code_total (length bin_str) bin_str encoding_to_char
              i (i + 1)) as (j & -> & Hj & Hfound); [lia..|].
  cbn [bind].
  destruct (bool_decide (length bin_str ≤ j)%nat) eqn:Hend;
    [|apply bool_decide_eq_false in Hend].
  { exists [], [], (drop i bin_str). rewrite app_nil_r.
    split_and!; [done..|constructor]. }
  unfold dict_getitem, dict_contains in *.
  destruct (dict_get encoding_to_char (slice bin_str i j))
    as [char|] eqn:Hget; [|by discriminate Hfound; lia].
  cbn [bind].
  destruct (IH (original ++ char) j)
    as (codes & chars & rest & -> & Hdrop & Hne & Hall); [lia..|].
  exists (slice bin_str i j :: codes), (char :: chars), rest.
  split_and!; [by rewrite <-app_assoc| |done|by constructor].
  simpl. rewrite <-app_assoc, <-Hdrop.
  rewrite <-(take_drop (j - i) (drop i bin_str)) at 1.
  unfold slice. f_equal. rewrite drop_drop.
  by replace (i + (j - i))%nat with j by lia.
Qed.

(** X10: decode never decodes a payload to its end. For every pickled
    triple whose hex string is a numeral, some bits at the end of the bit
    string are left over, after the codes that were matched. *)
Theorem decode_leaves_bits hex_str book num_zeros_to_add bin_str :
  unpack hex_str num_zeros_to_add = Ok bin_str →
  ∃ codes chars rest,
    decode_str hex_str book num_zeros_to_add = Ok (mjoin chars) ∧
    bin_str = mjoin codes ++ rest ∧ rest ≠ [] ∧
    Forall2 (λ code char, dict_get (dict_invert book) code = Some char)
      codes chars.
Proof.
  intros Hunpack. pose proof (unpack_nonempty _ _ _ Hunpack) as Hne.
  unfold decode_str. rewrite Hunpack. cbn [bind].
  destruct (decode_loop_strict (length bin_str) bin_str (dict_invert book)
              [] 0) as (codes & chars & rest & Hrun & Hdrop & Hrest & Hall).
  - destruct bin_str; [done|simpl; lia].
  - lia.
  - exists codes, chars, rest. split_and!; done.
Qed.

Lemma decode_leaves_bits_witness :
  ∃ codes chars rest,
    decode_str (py "0x2") [(py "a", py "0"); (py "b", py "10")] 1 =
      Ok (mjoin chars) ∧
    py "010" = mjoin codes ++ rest ∧ rest ≠ [] ∧
    Forall2
      (λ code char,
         dict_get (dict_invert [(py "a", py "0"); (py "b", py "10")]) code =
         Some char)
      codes chars.
Proof. apply decode_leaves_bits. reflexivity. Defined.

(** ** decode with any prefix-free book *)

Lemma decode_loop_symbols (encoding_to_char : dict str str)
    (code : str → str) fuel (pre : str) (symbols : list str) original :
  prefix_free encoding_to_char.*1 →
  Forall (λ symbol, dict_get encoding_to_char (code symbol) = Some symbol ∧
                    code symbol ≠ []) symbols →
  (length symbols ≤ fuel)%nat →
  decode_loop fuel (pre ++ mjoin (code <$> symbols)) encoding_to_char
    original (length pre) =
  Ok (original ++ mjoin (removelast symbols)).
Proof.
  intros Hfree Hs. revert fuel pre original.
  induction Hs as [|c s [Hget Hne] Hs IH]; intros fuel pre original Hfuel.
  - rewrite !app_nil_r.
    destruct fuel; simpl; by rewrite bool_decide_false by lia.
  - destruct fuel as [|fuel]; [simpl in Hfuel; lia|].
    assert (code c ∈ encoding_to_char.*1) as Hkey.
    { apply dict_get_Some_elem in Hget.
      apply list_elem_of_fmap. by exists (code c, c). }
    assert (0 < length (code c))%nat as Hlen
      by (destruct (code c); [done|simpl; lia]).
    rewrite fmap_cons. cbn [mjoin list_join decode_loop].
    rewrite bool_decide_true by (rewrite !length_app; lia).
    rewrite (scan_code_Ok _ Hfree); [|done|lia|rewrite !length_app; lia].
    cbn [bind]. destruct s as [|c' s].
    + rewrite bool_decide_true; [simpl; by rewrite app_nil_r|].
      rewrite !length_app. simpl. lia.
    + pose proof (Forall_inv Hs) as [_ Hne'].
      rewrite bool_decide_false.
      2:{ rewrite !length_app, fmap_cons. cbn [mjoin list_join].
          rewrite length_app. destruct (code c'); [done|simpl; lia]. }
      rewrite slice_middle, firstn_all by done.
      unfold dict_getitem. rewrite Hget. cbn [bind].
      rewrite <-length_app, app_assoc. rewrite IH; [|simpl in *; lia].
      by rewrite <-app_assoc.
Qed.

(** X11: decode with any book. If the keys of the pickled book are
    distinct, its codes are non-empty and none is a prefix of another, and
    the bits are the codes of a sequence of keys of the book, then decode
    returns these keys in order, except the last one. *)
Theorem decode_any_book hex_str (book : dict str str) num_zeros_to_add
    (symbols : list str) :
  NoDup book.*1 → prefix_free book.*2 → Forall (λ code, code ≠ []) book.*2 →
  Forall (λ symbol, symbol ∈ book.*1) symbols →
  unpack hex_str num_zeros_to_add =
    Ok (mjoin ((λ symbol, default [] (dict_get book symbol)) <$> symbols)) →
  decode_str hex_str book num_zeros_to_add = Ok (mjoin (removelast symbols)).
Proof.
  intros Hkeys Hfree Hcodes Hsymbols Hunpack.
  unfold decode_str. rewrite Hunpack. cbn [bind].
  pose proof (prefix_free_NoDup _ Hfree) as Hnd.
  assert (Forall (λ symbol,
            dict_get (dict_invert book)
              (default [] (dict_get book symbol)) = Some symbol ∧
            default [] (dict_get book symbol) ≠ []) symbols) as Hdec.
  { eapply Forall_impl; [exact Hsymbols|]. intros symbol Hin.
    destruct (dict_get book symbol) as [code|] eqn:Hget;
      [|by apply dict_get_None in Hget].
    apply dict_get_Some_elem in Hget. simpl. split.
    - rewrite dict_invert_NoDup by done. apply dict_get_elem.
      + by rewrite <-list_fmap_compose.
      + apply list_elem_of_fmap. by exists (symbol, code).
    - rewrite Forall_forall in Hcodes. apply Hcodes.
      apply list_elem_of_fmap. by exists (symbol, code). }
  apply (decode_loop_symbols _ _ _ []); [|done|].
  - rewrite dict_invert_NoDup by done. by rewrite <-list_fmap_compose.
  - etrans; [|apply length_join_nonempty].
    + by rewrite length_fmap.
    + apply Forall_fmap. eapply Forall_impl; [exact Hdec|]. by intros ? [_ ?].
Qed.

Lemma decode_any_book_witness :
  decode_str (py "0xd") [(py "x", py "0"); (py "yz", py "1")] 1 =
  Ok (py "xyzyzx").
Proof.
  apply (decode_any_book _ _ _ [py "x"; py "yz"; py "yz"; py "x"; py "yz"]).
  - apply (bool_decide_unpack _). vm_compute. exact I.
  - intros [|[|i]] [|[|j]] x y Hi Hj Hne Hpre; simplify_eq/=; try done;
      by destruct Hpre as [[|??] [=]].
  - repeat constructor; done.
  - repeat constructor; apply (bool_decide_unpack _); vm_compute; exact I.
  - reflexivity.
Defined.

(** ** Files *)

Lemma decode_str_total hex_str book num_zeros_to_add bin_str :
  unpack hex_str num_zeros_to_add = Ok bin_str →
  ∃ original, decode_str hex_str book num_zeros_to_add = Ok original.
Proof.
  intros Hunpack. unfold decode_str. rewrite Hunpack. cbn [bind].
  destruct (decode_loop_total (length bin_str) bin_str (dict_invert book)
              [] 0) as (codes & chars & Hrun & _); [lia..|].
  by exists (mjoin chars).
Qed.

Lemma encode_decode_files file (fs : files) s :
  read_text fs file = Ok s → two_distinct s →
  ∃ hex_str book num_zeros_to_add,
    encode file fs =
      Ok (<["compressed.txt"%string :=
              Pickle hex_str book num_zeros_to_add]>
            (delete "compressed.txt"%string fs)) ∧
    decode "compressed.txt"
      (<["compressed.txt"%string := Pickle hex_str book num_zeros_to_add]>
         (delete "compressed.txt"%string fs)) =
      Ok (<["decoded.txt"%string := Text (removelast s ++ [newline])]>
            (delete "decoded.txt"%string
               (<["compressed.txt"%string :=
                    Pickle hex_str book num_zeros_to_add]>
                  (delete "compressed.txt"%string fs)))).
Proof.
  intros Hfile Htwo.
  destruct (encode_str_Ok s Htwo)
    as (hex_str & book & n & Hencode & Hgood & _ & _ & Hunpack).
  destruct (encode_Ok file fs s Hfile Htwo)
    as (hex_str' & book' & n' & Hencode' & Hrun).
  rewrite Hencode in Hencode'. simplify_eq.
  exists hex_str', book', n'. split; [done|].
  apply (decode_Ok _ _ hex_str' book' n'); [apply lookup_insert_eq|].
  by apply (decode_str_good_book book' s).
Qed.

(** X12: encode writes [compressed.txt] and nothing else. For an input
    file of ASCII text that, read with its newlines translated, has at
    least two distinct symbols, it succeeds, [compressed.txt] then holds a
    pickled triple, whatever it held before, and every other file is as it
    was. *)
Theorem encode_writes_only_compressed file (fs : files) s :
  fs !! file = Some (Text s) → isascii s = true →
  two_distinct (universal_newlines s) →
  ∃ fs' hex_str book num_zeros_to_add,
    encode file fs = Ok fs' ∧
    fs' !! "compressed.txt"%string =
      Some (Pickle hex_str book num_zeros_to_add) ∧
    ∀ path, path ≠ "compressed.txt"%string → fs' !! path = fs !! path.
Proof.
  intros Hfile%read_text_Text _ Htwo.
  destruct (encode_Ok file fs _ Hfile Htwo)
    as (hex_str & book & n & _ & Hrun).
  eexists _, hex_str, book, n. split_and!; [done| |].
  - apply lookup_insert_eq.
  - intros path Hpath. by rewrite lookup_insert_ne, lookup_delete_ne.
Qed.

Lemma encode_writes_only_compressed_witness :
  ∃ fs' hex_str book num_zeros_to_add,
    encode "in.txt"
      {["in.txt"%string := Text [carriage_return; "a"%char];
        "compressed.txt"%string := Text (py "old")]} = Ok fs' ∧
    fs' !! "compressed.txt"%string =
      Some (Pickle hex_str book num_zeros_to_add) ∧
    ∀ path, path ≠ "compressed.txt"%string →
      fs' !! path =
      ({["in.txt"%string := Text [carriage_return; "a"%char];
         "compressed.txt"%string := Text (py "old")]} : files) !! path.
Proof.
  apply (encode_writes_only_compressed _ _ [carriage_return; "a"%char]).
  - reflexivity.
  - reflexivity.
  - apply two_distinct_check. reflexivity.
Defined.

(** X13: decode writes [decoded.txt] and nothing else. For a pickled file
    whose hex string is a numeral it succeeds whatever the book,
    [decoded.txt] then holds a text that ends with a newline, and every
    other file is as it was. *)
Theorem decode_writes_only_decoded file (fs : files) hex_str book
    num_zeros_to_add bin_str :
  fs !! file = Some (Pickle hex_str book num_zeros_to_add) →
  unpack hex_str num_zeros_to_add = Ok bin_str →
  ∃ fs' original,
    decode file fs = Ok fs' ∧
    fs' !! "decoded.txt"%string = Some (Text (original ++ [newline])) ∧
    ∀ path, path ≠ "decoded.txt"%string → fs' !! path = fs !! path.
Proof.
  intros Hfile Hunpack.
  destruct (decode_str_total hex_str book num_zeros_to_add bin_str Hunpack)
    as [original Hdecode].
  eexists _, original. split_and!.
  - by apply (decode_Ok file fs hex_str book num_zeros_to_add original).
  - apply lookup_insert_eq.
  - intros path Hpath. by rewrite lookup_insert_ne, lookup_delete_ne.
Qed.

Lemma decode_writes_only_decoded_witness :
  ∃ fs' original,
    decode "c.bin" {["c.bin"%string := Pickle (py "0x3") [] 0]} = Ok fs' ∧
    fs' !! "decoded.txt"%string = Some (Text (original ++ [newline])) ∧
    ∀ path, path ≠ "decoded.txt"%string →
      fs' !! path =
      ({["c.bin"%string := Pickle (py "0x3") [] 0]} : files) !! path.
Proof.
  apply (decode_writes_only_decoded "c.bin" _ (py "0x3") [] 0 (py "11"));
    reflexivity.
Defined.

(** X14: encode followed by decode of [compressed.txt]. For every input
    file of ASCII text that, read with its newlines translated, has at
    least two distinct symbols, both succeed, and [decoded.txt] holds the
    text that was read with its last character replaced by a newline. *)
Theorem encode_then_decode file (fs : files) s :
  fs !! file = Some (Text s) → isascii s = true →
  two_distinct (universal_newlines s) →
  ∃ fs1 fs2,
    encode file fs = Ok fs1 ∧
    decode "compressed.txt" fs1 = Ok fs2 ∧
    fs2 !! "decoded.txt"%string =
      Some (Text (removelast (universal_newlines s) ++ [newline])).
Proof.
  intros Hfile%read_text_Text _ Htwo.
  destruct (encode_decode_files file fs _ Hfile Htwo)
    as (hex_str & book & n & Hencode & Hdecode).
  eexists _, _. split_and!; [done..|].
  apply lookup_insert_eq.
Qed.

Lemma encode_then_decode_witness :
  ∃ fs1 fs2,
    encode "in.txt"
      {["in.txt"%string := Text ["a"%char; carriage_return; "b"%char]]}
      = Ok fs1 ∧
    decode "compressed.txt" fs1 = Ok fs2 ∧
    fs2 !! "decoded.txt"%string = Some (Text ["a"%char; newline; newline]).
Proof.
  apply (encode_then_decode _ _ ["a"%char; carriage_return; "b"%char]).
  - reflexivity.
  - reflexivity.
  - apply two_distinct_check. reflexivity.
Defined.

Lemma encode_twice_witness :
  (let* fs' :=
     encode "in.txt" {["in.txt"%string := Text (py "abracadabra")]} in
   encode "in.txt" fs') =
  encode "in.txt" {["in.txt"%string := Text (py "abracadabra")]}.
Proof. apply encode_twice. done. Defined.

(** ** The unit tests and the main program *)

Lemma os_remove_Ok path (fs : files) data :
  fs !! path = Some data → os_remove path fs = Ok (delete path fs).
Proof. intros Hpath. unfold os_remove. by rewrite Hpath. Qed.

Lemma run_encode_decode_test_Ok (fs : files) :
  run_encode_decode_test fs =
  Ok (delete "compressed.txt"%string
        (delete "decoded.txt"%string
           (delete "encode-test.txt"%string fs))).
Proof.
  unfold run_encode_decode_test.
  set (s := py "abracadabra" ++ ["010"%char]).
  set (fs0 := <["encode-test.txt"%string := Text s]> fs).
  destruct (encode_decode_files "encode-test.txt" fs0 s)
    as (hex_str & book & n & -> & Hdecode).
  { unfold read_text, fs0. by rewrite lookup_insert_eq. }
  { apply two_distinct_check. reflexivity. }
  cbn [bind]. rewrite Hdecode. cbn [bind].
  change (removelast s ++ [newline]) with s.
  set (fs2 := <["decoded.txt"%string := Text s]> _).
  assert (fs2 !! "encode-test.txt"%string = Some (Text s)) as Htest.
  { subst fs2 fs0.
    rewrite lookup_insert_ne, lookup_delete_ne, lookup_insert_ne,
      lookup_delete_ne by done.
    apply lookup_insert_eq. }
  assert (fs2 !! "decoded.txt"%string = Some (Text s)) as Hdecoded
    by apply lookup_insert_eq.
  unfold read_text. rewrite Htest, Hdecoded. cbn [bind].
  rewrite bool_decide_true by done. cbn [bind assert].
  rewrite (os_remove_Ok _ _ _ Htest). cbn [bind].
  rewrite (os_remove_Ok "decoded.txt" _ (Text s))
    by (by rewrite lookup_delete_ne).
  cbn [bind].
  rewrite (os_remove_Ok "compressed.txt" _ (Pickle hex_str book n)).
  2:{ subst fs2. rewrite !lookup_delete_ne, lookup_insert_ne,
        lookup_delete_ne by done. apply lookup_insert_eq. }
  f_equal. apply map_eq. intros path. subst fs2 fs0.
  repeat (rewrite ?lookup_delete, ?lookup_insert; repeat case_decide;
          try congruence).
Qed.

(** X16: [encode_decode_test] passes from every state of the files, and
    it removes [encode-test.txt], [decoded.txt] and [compressed.txt], also
    when such files existed before the test; the other files are as they
    were. *)
Theorem encode_decode_test_removes_files (fs : files) :
  ∃ fs',
    run_encode_decode_test fs = Ok fs' ∧
    fs' !! "encode-test.txt"%string = None ∧
    fs' !! "decoded.txt"%string = None ∧
    fs' !! "compressed.txt"%string = None ∧
    ∀ path,
      path ≠ "encode-test.txt"%string → path ≠ "decoded.txt"%string →
      path ≠ "compressed.txt"%string → fs' !! path = fs !! path.
Proof.
  eexists. split; [apply run_encode_decode_test_Ok|].
  split_and!; try (intros path ? ? ?);
    rewrite !lookup_delete; repeat case_decide; congruence.
Qed.

Lemma run_tests_exit (fs : files) : run_tests fs = Raise (SystemExit 0).
Proof.
  unfold run_tests.
  change run_make_dict_test with (Ok tt). cbn [bind].
  rewrite run_encode_decode_test_Ok. cbn [bind].
  by change run_tree_dfs_test with (Ok tt).
Qed.

(** X17: the main program. With the single argument [test] it runs the
    unit tests, which all pass, and exits with status 0 whatever files
    exist; with [encode] or [decode] and a file name it runs that function
    on the file; every other command line exits with status 1. *)
Theorem main_dispatch (argv : list string) (fs : files) :
  main argv fs =
  match argv with
  | [_; command] =>
      if bool_decide (command = "test"%string) then Raise (SystemExit 0)
      else Raise (SystemExit 1)
  | [_; command; file] =>
      if bool_decide (command = "encode"%string) then encode file fs
      else if bool_decide (command = "decode"%string) then decode file fs
      else Raise (SystemExit 1)
  | _ => Raise (SystemExit 1)
  end.
Proof.
  unfold main, usage.
  destruct argv as [|prog [|command [|file [|extra argv]]]]; try done.
  - cbn [length bool_decide]. simpl.
    destruct (decide (command = "test"%string)) as [->|Hne].
    + rewrite bool_decide_false by (by intros []).
      rewrite run_tests_exit. done.
    + rewrite bool_decide_true by congruence.
      by rewrite (bool_decide_false (command = _)).
  - simpl.
    destruct (decide (command = "encode"%string)) as [->|Hne1]; [done|].
    rewrite (bool_decide_false (Some command = _)) by congruence.
    rewrite (bool_decide_false (command = "encode"%string)) by done.
    destruct (decide (command = "decode"%string)) as [->|Hne2]; [done|].
    rewrite (bool_decide_false (Some command = _)) by congruence.
    by rewrite (bool_decide_false (command = "decode"%string)).
Qed.

(** ** The length of the codes *)

Lemma tree_dfs_depth node curstr :
  merged node →
  tree_dfs (Some node) curstr [] ≠ [] ∧
  Forall (λ leaf,
            (length (encoding leaf) + 1 ≤
             length curstr + length (tree_dfs (Some node) curstr []))%nat)
    (tree_dfs (Some node) curstr []).
Proof.
  intros Hm. revert curstr.
  induction Hm as [c f Hf|node1 node2 _ IH1 _ IH2]; intros curstr.
  - unfold TreeNode_init. rewrite tree_dfs_unfold. split; [done|].
    constructor; [simpl; lia|constructor].
  - unfold merge. rewrite tree_dfs_unfold.
    destruct (IH1 (curstr ++ ["0"%char])) as (Hne1 & Hlen1).
    destruct (IH2 (curstr ++ ["1"%char])) as (Hne2 & Hlen2).
    split; [intros [? _]%app_eq_nil; done|].
    rewrite length_app.
    assert (0 < length (tree_dfs (Some node1) (curstr ++ ["0"%char]) []))%nat
      by (destruct (tree_dfs (Some node1) _ []); [done|simpl; lia]).
    assert (0 < length (tree_dfs (Some node2) (curstr ++ ["1"%char]) []))%nat
      by (destruct (tree_dfs (Some node2) _ []); [done|simpl; lia]).
    apply Forall_app. split;
      (eapply Forall_impl; [done|]); intros leaf Hleaf; cbv beta in *;
      rewrite length_app in Hleaf; cbn [length] in Hleaf; lia.
Qed.

(** X18: in the code book of an input with at least two distinct symbols,
    every code is shorter than the number of symbols of the book: the tree
    is never deeper than a chain. *)
Theorem code_length_bound s :
  two_distinct s →
  ∃ book,
    code_book s = Ok book ∧
    Forall (λ code, (length code < length book)%nat) book.*2.
Proof.
  intros Htwo.
  destruct (code_book_entries s Htwo) as (root & Htree & Hbook).
  destruct (huffman_tree_Ok s Htwo) as (node1 & node2 & Htree' & _ & Hm & _).
  rewrite Htree in Htree'. simplify_eq.
  eexists. split; [done|].
  destruct (tree_dfs_depth (merge node1 node2) [] Hm) as [_ Hdepth].
  rewrite <-list_fmap_compose, length_fmap. apply Forall_fmap.
  eapply Forall_impl; [exact Hdepth|]. intros leaf Hleaf. simpl in *. lia.
Qed.

Lemma code_length_bound_witness :
  ∃ book,
    code_book (py "abracadabra") = Ok book ∧
    Forall (λ code, (length code < length book)%nat) book.*2.
Proof. apply code_length_bound. apply two_distinct_check. reflexivity. Defined.

(** ** The size of the hex string *)

Lemma format_digits_length fuel base n k digits :
  (2 ≤ base)%N → format_digits fuel base n = Ok digits →
  (n < base ^ N.of_nat k)%N → (0 < k)%nat → (length digits ≤ k)%nat.
Proof.
  intros Hbase. revert n k digits.
  induction fuel as [|fuel IH]; intros n k digits Hrun Hn Hk; [done|].
  cbn [format_digits] in Hrun. destruct (N.ltb_spec n base) as [Hlt|Hge].
  - simplify_eq. simpl. lia.
  - bind_ok Hrun. rename a into high. simplify_eq.
    rewrite length_app. simpl.
    destruct k as [|[|k]]; [lia| |].
    + simpl in Hn. lia.
    + rewrite Nat2N.inj_succ, N.pow_succ_r' in Hn.
      assert (length high ≤ S k)%nat; [|lia].
      eapply IH; [done| |lia].
      apply N.Div0.div_lt_upper_bound. lia.
Qed.

Lemma int_digits_bound acc bits n :
  Forall is_bit bits → int_digits 2 acc bits = Ok n →
  (n < (acc + 1) * 2 ^ N.of_nat (length bits))%N.
Proof.
  intros Hbits. revert acc.
  induction Hbits as [|c bits Hc _ IH]; intros acc Hrun.
  - simpl in *. simplify_eq. lia.
  - simpl in Hrun. destruct (is_bit_value c Hc) as (d & Hd & Hlt & _).
    rewrite Hd, (proj2 (N.ltb_lt _ _) Hlt) in Hrun.
    apply IH in Hrun. cbn [length]. rewrite Nat2N.inj_succ, N.pow_succ_r'.
    nia.
Qed.

(** X19: the hex string that encode pickles for a non-empty bit string is
    [0x] followed by at most one digit per four bits, rounded up, and it
    is a numeral of the number that the bit string is in base 2. *)
Theorem hex_string_size int_str :
  int_str ≠ [] → Forall is_bit int_str →
  ∃ digits num_zeros_to_add n,
    pack int_str =
      Ok ("0"%char :: "x"%char :: digits, int_str, num_zeros_to_add) ∧
    (4 * length digits < length int_str + 4)%nat ∧
    int_ int_str 2 = Ok n ∧
    int_ ("0"%char :: "x"%char :: digits) 16 = Ok n.
Proof.
  intros Hne Hbits.
  destruct (bin_int_bits int_str Hne Hbits)
    as (n & m & bin_str & Hint & Hbin & Hstr).
  destruct (hex_Ok n) as (hex_str & Hhex & Hback).
  pose proof Hhex as Hdigits. unfold hex in Hdigits.
  bind_ok Hdigits. rename a into digits. rename H into Hformat.
  simplify_eq.
  exists digits, m, n. split_and!; [| |done..].
  { unfold pack. rewrite Hint. cbn [bind]. rewrite Hhex. cbn [bind].
    rewrite Hback. cbn [bind]. rewrite Hbin. cbn [bind drop].
    rewrite add_zeros_Ok; [done|].
    rewrite length_app, length_replicate. lia. }
  set (int_str := replicate m "0"%char ++ bin_str) in *.
  assert (n < 2 ^ N.of_nat (length int_str))%N as Hbound.
  { unfold int_ in Hint. rewrite strip_base_prefix_bits in Hint by done.
    destruct int_str as [|c int_str]; [done|].
    apply int_digits_bound in Hint; [|done]. lia. }
  assert (length digits ≤ (length int_str + 3) / 4)%nat as Hlen.
  { eapply (format_digits_length _ 16 n); [lia|done| |].
    - eapply N.lt_le_trans; [exact Hbound|].
      change 16%N with (2 ^ 4)%N. rewrite <-N.pow_mul_r.
      apply N.pow_le_mono_r; [lia|].
      pose proof (Nat.div_mod (length int_str + 3) 4).
      pose proof (Nat.mod_upper_bound (length int_str + 3) 4). lia.
    - assert (0 < length int_str)%nat by (destruct int_str; [done|cbn; lia]).
      apply Nat.div_str_pos. lia. }
  pose proof (Nat.Div0.mul_div_le (length int_str + 3) 4). lia.
Qed.

Lemma hex_string_size_witness :
  ∃ digits num_zeros_to_add n,
    pack (py "000010011") =
      Ok ("0"%char :: "x"%char :: digits, py "000010011", num_zeros_to_add) ∧
    (4 * length digits < length (py "000010011") + 4)%nat ∧
    int_ (py "000010011") 2 = Ok n ∧
    int_ ("0"%char :: "x"%char :: digits) 16 = Ok n.
Proof.
  apply hex_string_size; [done|].
  repeat constructor; by (left + right).
Defined.
